(** * feeds: the ingestion pipeline of [feeds/model]

  A shallow embedding of [feeds/model/entry.py] and [feeds/model/feed.py]:
  the link-keyed entry cache, the relative-date formatting of an entry,
  the per-entry download worker of a feed, and the loading and saving of
  the feed list.

  Conventions.
  - Python exceptions are values of [exn]; a call that may raise returns a
    [result], and a [try] statement is a case distinction on it.
  - A thread pool is the interleaving of its workers' statements; the
    statements are atomic, as [list.append], [Queue.put] and the dictionary
    operations are in CPython.
  - Objects that the program shares and mutates ([Entry] instances held by
    the cache, by a feed and by the queue at once) live in a heap and are
    named by references.
  - Everything behind a library call (the feed parser, the article
    extractor, HTTP, the clock, the file system) is an input of the model:
    the functions below are stated for every answer that such a call can
    give. *)

From Stdlib Require Import ZArith Lia.
From stdpp Require Import base option list gmap strings pretty.

Set Warnings "-register-all".

Open Scope string_scope.
Open Scope list_scope.
Open Scope Z_scope.

(** ** Python values, exceptions and logging *)

Module Py.

(** The exception classes that the modelled code raises or names in an
    [except] clause.  All of them derive from [Exception]. *)
Inductive exn_class :=
| KeyError
| IndexError
| TypeError
| AttributeError
| ValueError           (* includes json.JSONDecodeError *)
| OSError              (* includes FileNotFoundError, PermissionError *)
| PickleError
| FeedParseError       (* feed.py, line 68 *)
| OtherException.      (* any other subclass of Exception *)

Record exn := Exn { exn_cls : exn_class; exn_msg : string }.

#[global] Instance exn_class_eq_dec : EqDecision exn_class.
Proof. solve_decision. Defined.

Inductive result (A : Type) :=
| Ok (a : A)
| Raise (e : exn).
Arguments Ok {A} a.
Arguments Raise {A} e.

Definition bind {A B} (m : result A) (k : A -> result B) : result B :=
  match m with
  | Ok a => k a
  | Raise e => Raise e
  end.

(** [try: body  except Exception as e: handler e] and the bare
    [except:] both catch every exception of the model. *)
Definition try_except_all {A} (body : result A)
           (handler : exn -> result A) : result A :=
  match body with
  | Ok a => Ok a
  | Raise e => handler e
  end.

Definition raises {A} (r : result A) : Prop :=
  match r with Ok _ => False | Raise _ => True end.

(** One record of the [logging] module. *)
Inductive log_record :=
| LogInfo (msg : string)
| LogError (msg : string).

(** The values [json.load] produces and [json.dump] accepts.  Numbers are
    kept as integers. *)
Inductive json :=
| JNull
| JBool (b : bool)
| JNum (n : Z)
| JStr (s : string)
| JArr (items : list json)
| JObj (members : list (string * json)).

(** Python truthiness, as used by [display if display else ...]. *)
Definition truthy (v : json) : bool :=
  match v with
  | JNull => false
  | JBool b => b
  | JNum n => negb (n =? 0)
  | JStr s => negb (String.eqb s "")
  | JArr items => match items with [] => false | _ => true end
  | JObj members => match members with [] => false | _ => true end
  end.

(** How writing a file can go: [Path(path).parent.mkdir], then [open] for
    writing (which truncates the file), then the dump. *)
Inductive write_io :=
| WriteOk
| MkdirFails (e : exn)
| OpenFails (e : exn)
| DumpFails (e : exn).

(** The exception with which a write fails, if it does. *)
Definition failure_of (io : write_io) : option exn :=
  match io with
  | WriteOk => None
  | MkdirFails e | OpenFails e | DumpFails e => Some e
  end.

End Py.
Import Py.

(** [x ← m; k] runs [k] when [m] returns and propagates what [m] raises. *)
#[global] Instance result_bind : MBind result := fun A B k m => Py.bind m k.
#[global] Instance result_ret : MRet result := fun A a => Ok a.

Definition bytes := list Byte.byte.

(** ** The entry cache ([feed.py], class [EntryCache])

  The cache is generic in what it stores: the download worker below stores
  references to [Entry] objects. *)

Module EntryCache.
Section EntryCache.

Context {Entry : Type}.

(** [self.cache_path]: [entries.pickle] in the user's cache directory. *)
Variable cache_path : string.

(** [self.entries] is the store, [self.used] the entries handed out by
    [get] since construction. *)
Record t := Build {
  entries : gmap string Entry;
  used : gmap string Entry;
}.

(** What [open(self.cache_path, "rb")] followed by [pickle.load] finds:
    a pickled dictionary, or a failure (no file, no permission, not a
    pickle). *)
Inductive cache_file :=
| Unreadable (e : exn)
| Pickled (d : gmap string Entry).

Definition pickle_load (f : cache_file) : result (gmap string Entry) :=
  match f with
  | Unreadable e => Raise e
  | Pickled d => Ok d
  end.

(** [__init__], lines 24-35.  The object is first set up empty; the
    [try] block replaces [self.entries] when the file loads, and
    [except Exception] logs whatever it raises. *)
Definition init (f : cache_file) : result t * list log_record :=
  let self := Build ∅ ∅ in
  match pickle_load f with
  | Ok d => (Ok (Build d (used self)), [])
  | Raise e =>
      (Ok self, [LogError ("Failed to load cache file: " +:+ exn_msg e)])
  end.

Definition truncated : exn := Exn PickleError "Ran out of input".

(** The [try] block of [save], lines 44-47: what it raises, if anything,
    the file afterwards and the log records written. *)
Definition save_body (io : write_io) (self : t) (f : cache_file)
  : result unit * cache_file * list log_record :=
  let path_info := LogInfo ("saving cache to " +:+ cache_path) in
  match io with
  | MkdirFails e => (Raise e, f, [])
  | OpenFails e => (Raise e, f, [path_info])
  | DumpFails e => (Raise e, Unreadable truncated, [path_info])
  | WriteOk => (Ok (), Pickled (used self), [path_info])
  end.

(** [save], lines 37-49: [except Exception] logs the failure and returns. *)
Definition save (io : write_io) (self : t) (f : cache_file)
  : result unit * cache_file * list log_record :=
  let '(r, f', l) := save_body io self f in
  match r with
  | Ok _ => (Ok (), f', l)
  | Raise e =>
      (Ok (), f',
       l ++ [LogError ("Failed to save cache to path: " +:+ exn_msg e)])
  end.

(** [self.entries[link]] *)
Definition getitem (d : gmap string Entry) (link : string) : result Entry :=
  match d !! link with
  | Some entry => Ok entry
  | None => Raise (Exn KeyError link)
  end.

(** [self.used[link] = entry] *)
Definition mark (link : string) (entry : Entry) (self : t) : t :=
  Build (entries self) (<[link := entry]> (used self)).

(** [get], lines 51-61. *)
Definition get (link : string) (self : t) : result (option Entry) * t :=
  match getitem (entries self) link with
  | Ok entry => (Ok (Some entry), mark link entry self)
  | Raise e =>
      if decide (exn_cls e = KeyError) then (Ok None, self)
      else (Raise e, self)
  end.

(** [put], lines 63-65. *)
Definition put (link : string) (entry : Entry) (self : t) : t :=
  Build (<[link := entry]> (entries self)) (used self).

(** The operations a client can apply to a constructed cache. *)
Inductive op :=
| Get (link : string)
| Put (link : string) (entry : Entry).

Definition apply (self : t) (o : op) : t :=
  match o with
  | Get link => (get link self).2
  | Put link entry => put link entry self
  end.

(** The object that [EntryCache()] evaluates to. *)
Definition fresh (f : cache_file) : t :=
  match (init f).1 with
  | Ok self => self
  | Raise _ => Build ∅ ∅
  end.

(** The caches a program can hold: constructed from some cache file, then
    any sequence of [get] and [put]. *)
Inductive reachable : t -> Prop :=
| reach_init f : reachable (fresh f)
| reach_step self o : reachable self -> reachable (apply self o).

End EntryCache.
Arguments t : clear implicits.
Arguments cache_file : clear implicits.
Arguments op : clear implicits.
End EntryCache.

(** ** The collaborators' data

    Only the attributes that the modelled code reads. *)

Module Time.

(** The first six items of a [time.struct_time], which is all that
    [date[:6]] keeps: the calendar date ([tm_year], [tm_mon], [tm_mday]),
    given by its day number, and the time of day. *)
Record struct_time := StructTime {
  tm_day : Z;
  tm_hour : Z;
  tm_min : Z;
  tm_sec : Z;
}.

(** A naive [datetime.datetime]; [toordinal] is the day number of its
    calendar date. *)
Record datetime := DateTime {
  toordinal : Z;
  hour : Z;
  minute : Z;
  second : Z;
  microsecond : Z;
}.

Record timedelta := TimeDelta {
  days : Z;
  seconds : Z;
  microseconds : Z;
}.

(** [timedelta(days, seconds, microseconds)]: the constructor carries
    microseconds into seconds and seconds into days, so that
    [0 <= seconds < 86400] and [0 <= microseconds < 1000000]. *)
Definition timedelta_new (d s us : Z) : timedelta :=
  let d := d + s / 86400 in
  let s := s mod 86400 in
  let s := s + us / 1000000 in
  let us := us mod 1000000 in
  let d := d + s / 86400 in
  let s := s mod 86400 in
  TimeDelta d s us.

(** [a - b] on two naive datetimes. *)
Definition sub (a b : datetime) : timedelta :=
  let secs (x : datetime) := second x + minute x * 60 + hour x * 3600 in
  timedelta_new (toordinal a - toordinal b) (secs a - secs b)
                (microsecond a - microsecond b).

(** [datetime.datetime( *(date[:6]))]: no microseconds. *)
Definition of_struct_time (date : struct_time) : datetime :=
  DateTime (tm_day date) (tm_hour date) (tm_min date) (tm_sec date) 0.

(** Microseconds since the start of day number 0. *)
Definition instant (x : datetime) : Z :=
  ((toordinal x * 86400 + hour x * 3600 + minute x * 60 + second x) * 1000000)
  + microsecond x.

(** Whole seconds from [b] to [a], rounded down. *)
Definition elapsed_seconds (a b : datetime) : Z :=
  (instant a - instant b) / 1000000.

(** Whole seconds from the time that a raw entry carries to [now], rounded
    down: the elapsed time that the relative date is to express, counted on
    the items of the [struct_time] themselves. *)
Definition seconds_since (now : datetime) (stamp : struct_time) : Z :=
  (((toordinal now - tm_day stamp) * 86400
    + (hour now - tm_hour stamp) * 3600
    + (minute now - tm_min stamp) * 60
    + (second now - tm_sec stamp)) * 1000000
   + microsecond now) / 1000000.

End Time.

Module Feedparser.

(** One item of [feedparser.parse(url).entries].  An attribute that the
    parsed feed does not carry is [None] here; reading it in Python raises
    [AttributeError]. *)
Record entry := Entry {
  link : string;
  title : string;
  published_parsed : option Time.struct_time;
  created_parsed : option Time.struct_time;
}.

End Feedparser.

Module Newspaper.

(** A downloaded and parsed [newspaper.Article]. *)
Record Article := {
  article_html : string;
  top_image : string;
}.

End Newspaper.

Module Requests.

Record Response := {
  status_code : Z;
  content : bytes;
}.

End Requests.

(** ** Entries ([entry.py]) *)

Module Entry.

(** Feeds are objects too; an entry names its parent by reference. *)
Abbreviation feed_ref := nat.

Record t := Build {
  parent_feed : feed_ref;
  title : string;
  link : string;
  html : string;
  top_image : option bytes;
  top_image_url : string;
  icon : option bytes;
  date : string;
}.

(** [_construct_date], lines 35-56; [now] is what
    [datetime.datetime.now()] returns. *)
Definition construct_date (now date : Time.datetime) : string :=
  let delta := Time.sub now date in
  let months := Time.days delta / 30 in
  let hours := Time.seconds delta / 3600 in
  let minutes := Time.seconds delta / 60 in
  let '(value, unit) :=
    if 0 <? months then (months, "month")
    else if 0 <? Time.days delta then (Time.days delta, "day")
    else if 0 <? hours then (hours, "hour")
    else (minutes, "minute") in
  let unit := if 1 <? value then unit +:+ "s" else unit in
  pretty value +:+ " " +:+ unit +:+ " ago".

(** The [try]/[except] chain of lines 25-32: the published time, else the
    created time, else nothing. *)
Definition timestamp (entry : Feedparser.entry) : option Time.struct_time :=
  match Feedparser.published_parsed entry with
  | Some date => Some date
  | None => Feedparser.created_parsed entry
  end.

(** [__init__], lines 10-33. *)
Definition init (now : Time.datetime) (parent : feed_ref)
    (article : Newspaper.Article) (entry : Feedparser.entry)
    (top_image_url : string) (top_image icon_image : option bytes) : t :=
  let self d :=
    Build parent (Feedparser.title entry) (Feedparser.link entry)
          (Newspaper.article_html article) top_image top_image_url
          icon_image d in
  match timestamp entry with
  | None => self ""
  | Some date => self (construct_date now (Time.of_struct_time date))
  end.

(** Two entries that agree on every field but the parent. *)
Definition same_content (e e' : t) : Prop :=
  link e' = link e
  /\ title e' = title e
  /\ html e' = html e
  /\ top_image_url e' = top_image_url e
  /\ top_image e' = top_image e
  /\ icon e' = icon e
  /\ date e' = date e.

(** [cached._parent_feed = self] *)
Definition set_parent (parent : feed_ref) (e : t) : t :=
  Build parent (title e) (link e) (html e) (top_image e) (top_image_url e)
        (icon e) (date e).

(** The relative date as the specification words it: the candidate units
    in priority order, the first one whose value is positive, minutes when
    there is none; the unit in the plural when the value exceeds one. *)
Definition candidates (delta : Time.timedelta) : list (Z * string) :=
  [ (Time.days delta / 30, "month");
    (Time.days delta, "day");
    (Time.seconds delta / 3600, "hour") ].

Definition largest_applicable (delta : Time.timedelta) : Z * string :=
  match List.find (fun c => 0 <? c.1) (candidates delta) with
  | Some c => c
  | None => (Time.seconds delta / 60, "minute")
  end.

Definition describe (value : Z) (unit : string) : string :=
  pretty value +:+ " " +:+ unit +:+ (if 1 <? value then "s" else "")
  +:+ " ago".

Definition relative_date (delta : Time.timedelta) : string :=
  let '(value, unit) := largest_applicable delta in describe value unit.

(** The same for a time that is not in the future, on the whole seconds
    that have passed. *)
Definition relative_date_of_seconds (s : Z) : string :=
  if 30 * 86400 <=? s then describe (s / 86400 / 30) "month"
  else if 86400 <=? s then describe (s / 86400) "day"
  else if 3600 <=? s then describe (s / 3600) "hour"
  else describe (s / 60) "minute".

End Entry.

(** ** Feeds ([feed.py], class [Feed]) *)

Module Feed.

(** A reference to an [Entry] object: its index in the heap. *)
Abbreviation entry_ref := nat.

Record t := Build {
  url : string;
  enabled : json;
  entries : list entry_ref;
  feed : list Feedparser.entry;
  display : json;
  icon : option bytes;
}.

(** [_download_image], lines 134-144, given what [requests.get(url)]
    does.  A status other than 200 falls off the end of the function. *)
Definition download_image (response : result Requests.Response)
  : result (option bytes) :=
  try_except_all
    (r ← response;
     if Requests.status_code r =? 200 then Ok (Some (Requests.content r))
     else Ok None)
    (fun _ => Ok None).

(** The collaborators that [__init__] calls, as functions of the URL they
    are given. *)
Record world := World {
  feedparser_parse : string -> result (list Feedparser.entry);
  urlparse_hostname : string -> result (option string);
  source_brand_upper : string -> result string;
  requests_get : string -> result Requests.Response;
}.

(** [entries[0]] *)
Definition first_entry (l : list Feedparser.entry) : result Feedparser.entry :=
  match l with
  | e :: _ => Ok e
  | [] => Raise (Exn IndexError "list index out of range")
  end.

(** [f"...{root_link}..."] prints a missing host name as [None]. *)
Definition favicon_url (root_link : option string) : string :=
  "https://www.google.com/s2/favicons?domain="
  +:+ default "None" root_link +:+ "&sz=32".

(** [__init__], lines 76-100.  On success the constructor also starts the
    thread that runs [download_entries] for the new feed. *)
Definition init (w : world) (url : string) (display enabled : json)
  : result t :=
  try_except_all
    (parsed ← feedparser_parse w url;
     first ← first_entry parsed;
     let first_link := Feedparser.link first in
     root_link ← urlparse_hostname w first_link;
     shown ← (if truthy display then Ok display
              else brand ← source_brand_upper w first_link; Ok (JStr brand));
     image ← download_image (requests_get w (favicon_url root_link));
     Ok (Build url enabled [] parsed shown image))
    (fun e =>
       Raise (Exn FeedParseError
                  ("Failed to parse feed from " +:+ url +:+ ": " +:+ exn_msg e))).

(** *** The download of one entry

    [download_entries] hands every raw entry of the feed to a thread pool;
    each unit of work runs [download_entry] (lines 105-129).  A worker is
    modelled by the statement it is about to execute, and the pool by the
    interleaving of its workers' statements. *)

(** What the collaborators answer to one worker. *)
Record answers := Answers {
  article : result Newspaper.Article;    (* Article(...), download(), parse() *)
  image : result Requests.Response;      (* requests.get(article.top_image) *)
  now : Time.datetime;                   (* datetime.datetime.now() *)
}.

Inductive pc :=
| AtGet                                   (* 110: entry = self.entries[link] *)
| AtGetMark (cached : entry_ref)          (* 110: self.used[link] = entry *)
| AtReparent (cached : entry_ref)         (* 111-114 *)
| AtDownload                              (* 116-118 *)
| AtImage (a : Newspaper.Article)         (* 121 *)
| AtConstruct (a : Newspaper.Article) (img : option bytes)   (* 123-124 *)
| AtPut (feed_entry : entry_ref)          (* 125 *)
| AtForce (feed_entry : entry_ref)        (* 126: entry = self.entries[link] *)
| AtForceMark (feed_entry found : entry_ref)   (* 126: self.used[link] = entry *)
| AtLog (feed_entry : entry_ref)          (* 127 *)
| AtAppend (feed_entry : entry_ref)       (* 128 *)
| AtPush (feed_entry : entry_ref)         (* 129 *)
| Finished (feed_entry : entry_ref)
| Failed (e : exn).                       (* the exception stays in the future *)

Record worker := Worker {
  entry_data : Feedparser.entry;
  env : answers;
  at_pc : pc;
}.

(** What the workers share. *)
Record state := State {
  heap : list Entry.t;
  cache : EntryCache.t entry_ref;
  self_feed : t;
  queue : list entry_ref;
  log : list log_record;
}.

Definition link_of (heap : list Entry.t) (r : entry_ref) : string :=
  from_option Entry.link "" (heap !! r).

Definition append_entry (r : entry_ref) (f : t) : t :=
  Build (url f) (enabled f) (entries f ++ [r]) (feed f) (display f) (icon f).

(** One statement of the worker [w] of the feed [self]. *)
Definition step (self : Entry.feed_ref) (w : worker) (s : state)
  : worker * state :=
  let link := Feedparser.link (entry_data w) in
  let goto p := Worker (entry_data w) (env w) p in
  match at_pc w with
  | AtGet =>
      match EntryCache.getitem (EntryCache.entries (cache s)) link with
      | Ok r => (goto (AtGetMark r), s)
      | Raise e =>
          if decide (exn_cls e = KeyError) then (goto AtDownload, s)
          else (goto (Failed e), s)
      end
  | AtGetMark r =>
      (goto (AtReparent r),
       State (heap s) (EntryCache.mark link r (cache s)) (self_feed s)
             (queue s) (log s))
  | AtReparent r =>
      (goto (AtAppend r),
       State (alter (Entry.set_parent self) r (heap s)) (cache s)
             (self_feed s) (queue s)
             (log s ++ [LogInfo ("using cached entry " +:+ link_of (heap s) r)]))
  | AtDownload =>
      match article (env w) with
      | Ok a => (goto (AtImage a), s)
      | Raise e => (goto (Failed e), s)
      end
  | AtImage a =>
      match download_image (image (env w)) with
      | Ok img => (goto (AtConstruct a img), s)
      | Raise e => (goto (Failed e), s)
      end
  | AtConstruct a img =>
      let e := Entry.init (now (env w)) self a (entry_data w)
                          (Newspaper.top_image a) img (icon (self_feed s)) in
      (goto (AtPut (length (heap s))),
       State (heap s ++ [e]) (cache s) (self_feed s) (queue s) (log s))
  | AtPut r =>
      (goto (AtForce r),
       State (heap s) (EntryCache.put link r (cache s)) (self_feed s)
             (queue s) (log s))
  | AtForce r =>
      match EntryCache.getitem (EntryCache.entries (cache s)) link with
      | Ok found => (goto (AtForceMark r found), s)
      | Raise e =>
          if decide (exn_cls e = KeyError) then (goto (AtLog r), s)
          else (goto (Failed e), s)
      end
  | AtForceMark r found =>
      (goto (AtLog r),
       State (heap s) (EntryCache.mark link found (cache s)) (self_feed s)
             (queue s) (log s))
  | AtLog r =>
      (goto (AtAppend r),
       State (heap s) (cache s) (self_feed s) (queue s)
             (log s ++ [LogInfo ("cached entry " +:+ link_of (heap s) r)]))
  | AtAppend r =>
      (goto (AtPush r),
       State (heap s) (cache s) (append_entry r (self_feed s)) (queue s)
             (log s))
  | AtPush r =>
      (goto (Finished r),
       State (heap s) (cache s) (self_feed s) (queue s ++ [r]) (log s))
  | Finished r => (w, s)
  | Failed e => (w, s)
  end.

(** The statements a worker still has to run, at most. *)
Definition remaining (p : pc) : nat :=
  match p with
  | AtGet => 10
  | AtDownload => 9
  | AtImage _ => 8
  | AtConstruct _ _ => 7
  | AtPut _ => 6
  | AtForce _ => 5
  | AtForceMark _ _ => 4
  | AtGetMark _ => 4
  | AtLog _ => 3
  | AtReparent _ => 3
  | AtAppend _ => 2
  | AtPush _ => 1
  | Finished _ => 0
  | Failed _ => 0
  end.

(** [fuel] statements of one worker, with no other worker in between. *)
Fixpoint run_worker (fuel : nat) (self : Entry.feed_ref) (w : worker)
    (s : state) : worker * state :=
  match fuel with
  | O => (w, s)
  | S fuel' => let '(w', s') := step self w s in run_worker fuel' self w' s'
  end.

(** [download_entry] run on its own, from its first statement to its
    last. *)
Definition download_entry (self : Entry.feed_ref) (data : Feedparser.entry)
    (a : answers) (s : state) : worker * state :=
  run_worker (remaining AtGet) self (Worker data a AtGet) s.

(** *** The pool, lines 131-132 *)

Definition config : Type := list worker * state.

(** [executor.map(download_entry, self._feed.entries)]: one unit of work
    per raw entry, in the order of the feed; [envs i] is what the
    collaborators answer to the unit of work number [i]. *)
Definition submit (envs : nat -> answers) (s : state) : config :=
  (imap (fun i d => Worker d (envs i) AtGet) (feed (self_feed s)), s).

(** Worker number [i] runs its next statement. *)
Definition pool_step (self : Entry.feed_ref) (c : config) (i : nat) : config :=
  match c.1 !! i with
  | Some w => let '(w', s') := step self w c.2 in (<[i := w']> c.1, s')
  | None => c
  end.

(** A schedule names the worker that runs at each turn. *)
Definition run (self : Entry.feed_ref) (sched : list nat) (c : config)
  : config :=
  foldl (pool_step self) c sched.

(** [download_entries], lines 102-132, when the threads of the pool run
    in the order [sched]. *)
Definition download_entries (self : Entry.feed_ref) (envs : nat -> answers)
    (sched : list nat) (s : state) : config :=
  run self sched (submit envs s).

Definition over (w : worker) : bool :=
  match at_pc w with Finished _ | Failed _ => true | _ => false end.

Definition failed (w : worker) : bool :=
  match at_pc w with Failed _ => true | _ => false end.

(** The executor's [with] block is left when every unit of work is over. *)
Definition all_over (c : config) : bool := forallb over c.1.

(** What a worker has added to [self._entries] and to the queue when it is
    about to execute a given statement. *)
Definition appended (w : worker) : nat :=
  match at_pc w with AtPush _ | Finished _ => 1 | _ => 0 end.

Definition pushed (w : worker) : nat :=
  match at_pc w with Finished _ => 1 | _ => 0 end.

(** The pool has appended and pushed as much as its workers say, on top of
    what the feed's entries and the queue held when it started. *)
Definition counted (base_entries base_queue : list entry_ref) (c : config)
  : Prop :=
  exists new out,
    entries (self_feed c.2) = base_entries ++ new
    /\ queue c.2 = base_queue ++ out
    /\ length new = sum_list (appended <$> c.1)
    /\ length out = sum_list (pushed <$> c.1).

(** A worker that has not failed and whose article is extracted. *)
Definition sound (w : worker) : Prop :=
  failed w = false /\ exists art, article (env w) = Ok art.

End Feed.

(** ** The feed list ([feed.py], class [FeedList]) *)

Module FeedList.

(** What [open(path, "r+")] followed by [json.load] finds at the path of
    the feed-list file: the file cannot be opened (missing, unreadable), it
    opens but does not hold JSON, or it holds a JSON value. *)
Inductive feed_file :=
| Unopenable (e : exn)
| Undecodable (e : exn)
| Holds (j : json).

Definition is_space (c : Ascii.ascii) : bool :=
  let n := Ascii.nat_of_ascii c in
  ((9 <=? n)%nat && (n <=? 13)%nat) || ((28 <=? n)%nat && (n <=? 32)%nat).

(** [str.rstrip()] on ASCII text. *)
Fixpoint rstrip (s : string) : string :=
  match s with
  | EmptyString => EmptyString
  | String c rest =>
      match rstrip rest with
      | EmptyString => if is_space c then EmptyString else String c EmptyString
      | kept => String c kept
      end
  end.

(** The value of a key in an object as [json.load] builds it: of a
    repeated key the last value counts. *)
Fixpoint last_value (key : string) (members : list (string * json))
  : option json :=
  match members with
  | [] => None
  | (k, v) :: rest =>
      match last_value key rest with
      | Some v' => Some v'
      | None => if decide (k = key) then Some v else None
      end
  end.

(** [data[key]] for a string key. *)
Definition subscript (data : json) (key : string) : result json :=
  match data with
  | JObj members =>
      match last_value key members with
      | Some v => Ok v
      | None => Raise (Exn KeyError key)
      end
  | JStr _ => Raise (Exn TypeError "string indices must be integers")
  | JArr _ => Raise (Exn TypeError "list indices must be integers or slices")
  | _ => Raise (Exn TypeError "object is not subscriptable")
  end.

(** [v.rstrip()] *)
Definition rstrip_of (v : json) : result string :=
  match v with
  | JStr s => Ok (rstrip s)
  | _ => Raise (Exn AttributeError "object has no attribute 'rstrip'")
  end.

(** [for data in feeds_data]: the items of a list, the keys of an object,
    the characters of a string. *)
Definition iterate (v : json) : result (list json) :=
  match v with
  | JArr items => Ok items
  | JObj members => Ok (JStr <$> reverse (remove_dups (reverse members.*1)))
  | JStr s =>
      Ok ((fun c => JStr (String c EmptyString)) <$> String.list_ascii_of_string s)
  | _ => Raise (Exn TypeError "object is not iterable")
  end.

(** What [load] changes: [self._feeds] and the log. *)
Record state := State {
  feeds : list Feed.t;
  log : list log_record;
}.

Definition append (feed : Feed.t) (s : state) : state :=
  State (feeds s ++ [feed]) (log s).

Definition logging (r : log_record) (s : state) : state :=
  State (feeds s) (log s ++ [r]).

(** The right-hand side of line 258. *)
Definition construct (w : Feed.world) (data : json) : result Feed.t :=
  u ← subscript data "url";
  url ← rstrip_of u;
  display ← subscript data "display";
  enabled ← subscript data "enabled";
  Feed.init w url display enabled.

(** The loop of lines 257-261.  An exception leaves the loop. *)
Fixpoint load_records (w : Feed.world) (records : list json) (s : state)
  : result unit * state :=
  match records with
  | [] => (Ok (), s)
  | data :: rest =>
      match construct w data with
      | Ok feed =>
          load_records w rest
            (logging (LogInfo ("Added feed from " +:+ Feed.url feed))
                     (append feed s))
      | Raise e => (Raise e, s)
      end
  end.

(** The inner [try] block, lines 256-261. *)
Definition load_inner (w : Feed.world) (content : feed_file) (s : state)
  : result unit * state :=
  match content with
  | Unopenable e => (Raise e, s)
  | Undecodable e => (Raise e, s)
  | Holds feeds_data =>
      match iterate feeds_data with
      | Ok records => load_records w records s
      | Raise e => (Raise e, s)
      end
  end.

(** [except cls as e: logging.error(msg e)] around a block that changes
    the state. *)
Definition except_log (catches : exn -> bool) (msg : exn -> string)
    (r : result unit * state) : result unit * state :=
  match r.1 with
  | Ok _ => r
  | Raise e =>
      if catches e then (Ok (), logging (LogError (msg e)) r.2) else r
  end.

(** [load], lines 244-266. *)
Definition load (w : Feed.world) (path : string) (file : feed_file)
    (s : state) : result unit * state :=
  except_log (fun _ => true)
    (fun e => "Error loading data file " +:+ path +:+ ": " +:+ exn_msg e)
    match file with
    | Unopenable e => (Raise e, s)
    | _ =>
        except_log (fun e => bool_decide (exn_cls e = FeedParseError))
          (fun e => "Error while processing feed: " +:+ exn_msg e)
          (load_inner w file s)
    end.

(** The dictionary of lines 233-237. *)
Definition saved_state (feed : Feed.t) : json :=
  JObj [ ("url", JStr (Feed.url feed));
         ("display", Feed.display feed);
         ("enabled", Feed.enabled feed) ].

Definition truncated : exn := Exn ValueError "Expecting value".

(** The [try] block of [save], lines 229-239. *)
Definition save_body (io : write_io) (self : list Feed.t) (file : feed_file)
  : result unit * feed_file :=
  match io with
  | MkdirFails e => (Raise e, file)
  | OpenFails e => (Raise e, file)
  | DumpFails e => (Raise e, Undecodable truncated)
  | WriteOk => (Ok (), Holds (JArr (saved_state <$> self)))
  end.

(** [save], lines 222-242: [except OSError] logs and raises again. *)
Definition save (io : write_io) (path : string) (self : list Feed.t)
    (file : feed_file) : result unit * feed_file * list log_record :=
  let '(r, file') := save_body io self file in
  match r with
  | Ok _ => (Ok (), file', [])
  | Raise e =>
      if decide (exn_cls e = OSError)
      then (Raise e, file',
            [LogError ("Error while saving feed list to " +:+ path +:+ ": "
                       +:+ exn_msg e)])
      else (Raise e, file', [])
  end.

End FeedList.

(** ** Sessions of the cache

    What a run of the program does with one cache: it constructs it from
    the cache file and then reads and writes it. *)

Module Session.
Import EntryCache.
Section Session.

Context {Entry : Type}.

(** The links that the operations ask [get] for. *)
Fixpoint links_read (ops : list (op Entry)) : gset string :=
  match ops with
  | [] => ∅
  | Get link :: rest => {[ link ]} ∪ links_read rest
  | Put _ _ :: rest => links_read rest
  end.

(** The cache after the operations, in order. *)
Definition after (c : t Entry) (ops : list (op Entry)) : t Entry :=
  foldl apply c ops.

End Session.
End Session.

(** ** Bookkeeping of the pool *)

Module Pool.
Import Feed.

(** The image that [_download_image] returns to a worker. *)
Definition image_of (a : answers) : option bytes :=
  match image a with
  | Ok r => if Requests.status_code r =? 200
            then Some (Requests.content r) else None
  | Raise _ => None
  end.

(** The entry that a worker has appended and not pushed yet. *)
Definition held (w : worker) : list entry_ref :=
  match at_pc w with AtPush r => [r] | _ => [] end.

Definition failure (w : worker) : nat := if failed w then 1 else 0.

(** The units of work that have ended with an exception. *)
Definition failures (p : list worker) : nat := sum_list (failure <$> p).

(** The entries appended are those pushed and those held. *)
Definition balanced (base_entries base_queue : list entry_ref) (c : config)
  : Prop :=
  exists new out,
    entries (self_feed c.2) = base_entries ++ new
    /\ queue c.2 = base_queue ++ out
    /\ new ≡ₚ out ++ mjoin (held <$> c.1).

(** The store only binds objects of the heap. *)
Definition store_live (s : state) : Prop :=
  forall l r, EntryCache.entries (cache s) !! l = Some r ->
              (r < length (heap s))%nat.

End Pool.

(** ** The pools of all feeds

    The constructor of every feed starts a thread that runs
    [download_entries] for it (lines 99-100 of [feed.py]), so the pools of
    all feeds run side by side: each appends to the entries of its own
    feed, and all of them share the entry objects, the cache, the queue
    and the log. *)

Module Pools.

Record shared := Shared {
  heap : list Entry.t;
  cache : EntryCache.t Feed.entry_ref;
  feeds : list Feed.t;
  queue : list Feed.entry_ref;
  log : list log_record;
}.

(** A unit of work of the pool of the feed object [owner]. *)
Record unit_of_work := Unit {
  owner : Entry.feed_ref;
  worker : Feed.worker;
}.

(** What a worker of the feed object [f] works on. *)
Definition view (g : shared) (f : Feed.t) : Feed.state :=
  Feed.State (heap g) (cache g) f (queue g) (log g).

(** One statement of a unit of work: [self] is its owner. *)
Definition step (u : unit_of_work) (g : shared) : unit_of_work * shared :=
  match feeds g !! owner u with
  | Some f =>
      let '(w', s') := Feed.step (owner u) (worker u) (view g f) in
      (Unit (owner u) w',
       Shared (Feed.heap s') (Feed.cache s')
              (<[owner u := Feed.self_feed s']> (feeds g))
              (Feed.queue s') (Feed.log s'))
  | None => (u, g)
  end.

Definition config : Type := list unit_of_work * shared.

(** [executor.map(download_entry, self._feed.entries)] for the feed object
    [self]. *)
Definition submit (envs : nat -> Feed.answers) (self : Entry.feed_ref)
    (f : Feed.t) : list unit_of_work :=
  imap (fun i d => Unit self (Feed.Worker d (envs i) Feed.AtGet))
       (Feed.feed f).

Definition pool_step (c : config) (i : nat) : config :=
  match c.1 !! i with
  | Some u => let '(u', g') := step u c.2 in (<[i := u']> c.1, g')
  | None => c
  end.

Definition run (sched : list nat) (c : config) : config :=
  foldl pool_step c sched.

(** The pools of the feeds [running], when the threads of all of them run
    in the order [sched]; [envs self i] is what the collaborators answer
    to the unit of work number [i] of the feed [self]. *)
Definition download_all (envs : Entry.feed_ref -> nat -> Feed.answers)
    (running : list Entry.feed_ref) (sched : list nat) (g : shared)
  : config :=
  run sched
      (mjoin ((fun self =>
                 match feeds g !! self with
                 | Some f => submit (envs self) self f
                 | None => []
                 end) <$> running),
       g).

(** The feed [f] with the entries [new] appended. *)
Definition extended (new : list Feed.entry_ref) (f : Feed.t) : Feed.t :=
  Feed.Build (Feed.url f) (Feed.enabled f) (Feed.entries f ++ new)
             (Feed.feed f) (Feed.display f) (Feed.icon f).

(** [r] is an object of the heap whose parent is one of [owners]. *)
Definition adopted (owners : list Entry.feed_ref) (heap : list Entry.t)
    (r : Feed.entry_ref) : Prop :=
  exists e, heap !! r = Some e /\ Entry.parent_feed e ∈ owners.

Definition store_live (g : shared) : Prop :=
  forall l r, EntryCache.entries (cache g) !! l = Some r ->
              (r < length (heap g))%nat.

(** The entry that a worker works on is an object of the heap, and has one
    of [owners] as parent once the worker has created or re-parented
    it. *)
Definition worker_ok (owners : list Entry.feed_ref) (heap : list Entry.t)
    (w : Feed.worker) : Prop :=
  match Feed.at_pc w with
  | Feed.AtGetMark r | Feed.AtReparent r => (r < length heap)%nat
  | Feed.AtPut r | Feed.AtForce r | Feed.AtForceMark r _ | Feed.AtLog r
  | Feed.AtAppend r | Feed.AtPush r | Feed.Finished r =>
      adopted owners heap r
  | _ => True
  end.

Definition unit_ok (owners : list Entry.feed_ref) (heap : list Entry.t)
    (u : unit_of_work) : Prop :=
  owner u ∈ owners /\ worker_ok owners heap (worker u).

(** What the pools of [owners] have delivered since the state [g]. *)
Definition delivered (owners : list Entry.feed_ref) (g : shared)
    (c : config) : Prop :=
  store_live c.2
  /\ Forall (unit_ok owners (heap c.2)) c.1
  /\ (forall self f,
        feeds g !! self = Some f ->
        exists new,
          feeds c.2 !! self = Some (extended new f)
          /\ Forall (adopted owners (heap c.2)) new
          /\ (self ∉ owners -> new = []))
  /\ exists out,
       queue c.2 = queue g ++ out
       /\ Forall (adopted owners (heap c.2)) out.

End Pools.

(** ** Bookkeeping of [load] *)

Module Loading.

(** The log records of the feeds that [load] adds. *)
Definition added_info (built : list Feed.t) : list log_record :=
  (fun f => LogInfo ("Added feed from " +:+ Feed.url f)) <$> built.

End Loading.

(** ** The entry list of the GUI ([gui/entry_list.py], class [EntryList])

    A layout is the list of its widgets, from top to bottom; a widget is
    an object that is shown or hidden. *)

Module EntryList.

Abbreviation item_ref := nat.

(** An [EntryListItem]: the entry it displays, and whether it is shown. *)
Record item := Item {
  entry : Feed.entry_ref;
  visible : bool;
}.

Record t := Build {
  columns : list (list item_ref);
  items : gmap string (list item_ref);
  entry_count : nat;
  widgets : list item;
}.

Definition COLUMN_COUNT : nat := 3.

(** [__init__] and [build], lines 15-40: three empty columns. *)
Definition init : t := Build (replicate COLUMN_COUNT []) ∅ 0 [].

(** [layout.insert_widget(index, item)] *)
Definition insert_widget (index : nat) (it : item_ref) (column : list item_ref)
  : list item_ref :=
  take index column ++ it :: drop index column.

(** [add_entry], lines 42-57.  [parent] is the object
    [entry.parent_feed] as it is when the entry is added, and [rnd] what
    [random.randint(0, column.count() - 1)] returns. *)
Definition add_entry (rnd : nat) (parent : Feed.t) (e : Feed.entry_ref)
    (self : t) : result unit * t :=
  let it := length (widgets self) in
  let url := Feed.url parent in
  let items' :=
    match items self !! url with
    | Some filed => <[url := filed ++ [it]]> (items self)
    | None => <[url := [it]]> (items self)
    end in
  let count := S (entry_count self) in
  let shown := Item e (truthy (Feed.enabled parent)) in
  match columns self !! (count mod COLUMN_COUNT)%nat with
  | None =>
      (Raise (Exn IndexError "list index out of range"),
       Build (columns self) items' count (widgets self ++ [Item e false]))
  | Some column =>
      let column' :=
        if (1 <? length column)%nat then insert_widget rnd it column
        else column ++ [it] in
      (Ok (),
       Build (<[(count mod COLUMN_COUNT)%nat := column']> (columns self))
             items' count (widgets self ++ [shown]))
  end.

(** [item.show() if feed.enabled else item.hide()] *)
Definition set_visible (b : bool) (it : item) : item := Item (entry it) b.

(** [reload_feed], lines 63-67. *)
Definition reload_feed (feed : Feed.t) (self : t) : result unit * t :=
  match items self !! Feed.url feed with
  | None => (Raise (Exn KeyError (Feed.url feed)), self)
  | Some filed =>
      (Ok (),
       Build (columns self) (items self) (entry_count self)
             (foldl (fun ws it =>
                       alter (set_visible (truthy (Feed.enabled feed))) it ws)
                    (widgets self) filed))
  end.

(** The entry lists that a program can hold: created empty, then entries
    are added and feeds reloaded. *)
Inductive reachable : t -> Prop :=
| reach_init : reachable init
| reach_add rnd parent e self :
    reachable self -> reachable (add_entry rnd parent e self).2
| reach_reload feed self :
    reachable self -> reachable (reload_feed feed self).2.

(** The widgets that are filed under some URL. *)
Definition filed (self : t) : list item_ref :=
  mjoin (map_to_list (items self)).*2.

(** When [n] entries have been added there are [n] widgets, each in one
    column and filed under one URL, and the columns hold [n / 3],
    [(n + 2) / 3] and [(n + 1) / 3] of them. *)
Definition tidy (self : t) : Prop :=
  length (widgets self) = entry_count self
  /\ filed self ≡ₚ seq 0 (entry_count self)
  /\ exists c0 c1 c2,
       columns self = [c0; c1; c2]
       /\ length c0 = (entry_count self / 3)%nat
       /\ length c1 = ((entry_count self + 2) / 3)%nat
       /\ length c2 = ((entry_count self + 1) / 3)%nat
       /\ c0 ++ c1 ++ c2 ≡ₚ seq 0 (entry_count self).

End EntryList.

(** ** The main window ([gui/gui.py], class [Gui]) *)

Module Gui.

Record t := Build {
  entry_list : EntryList.t;
}.

(** [add_entry], lines 61-66. *)
Definition add_entry (rnd : nat) (parent : Feed.t) (e : Feed.entry_ref)
    (self : t) : result unit * t :=
  let '(r, l) := EntryList.add_entry rnd parent e (entry_list self) in
  (r, Build l).

(** [reload_feed], lines 76-81: [except Exception] logs and returns. *)
Definition reload_feed (feed : Feed.t) (self : t)
  : result unit * t * list log_record :=
  let '(r, l) := EntryList.reload_feed feed (entry_list self) in
  match r with
  | Ok _ => (Ok (), Build l, [])
  | Raise e =>
      (Ok (), Build l, [LogError ("Failed to reload feed: " +:+ exn_msg e)])
  end.

End Gui.

(** ** The controller ([gui/controller.py], class [Controller])

    The feeds are objects that the feed list, their entries and the GUI
    share: the controller's state has the heap of the feed objects and the
    feed list as a list of references.  The entries that come out of the
    queue are copies, with copies of their parents. *)

Module Controller.

#[global] Instance feed_inhabited : Inhabited Feed.t :=
  populate (Feed.Build "" JNull [] [] JNull None).

#[global] Instance entry_inhabited : Inhabited Entry.t :=
  populate (Entry.Build 0 "" "" "" None "" None "").

(** What the entry queue holds for one [put].  The queue is a
    [Manager().Queue()] (line 28): [put] pickles the entry, and with it
    every object that can be reached from it (its parent feed, the entries
    of that feed, their parents, ...), as they are at that moment.  The
    references inside a pickle are positions in the pickle. *)
Record pickle := Pickle {
  root : Feed.entry_ref;
  entry_copies : list Entry.t;
  feed_copies : list Feed.t;
}.

(** The entry that was put, and its parent feed, as they were pickled. *)
Definition sent (p : pickle) : option Entry.t := entry_copies p !! root p.

Definition sent_parent (p : pickle) : option Feed.t :=
  e ← sent p; feed_copies p !! Entry.parent_feed e.

Record t := Build {
  feed_objs : list Feed.t;
  entry_objs : list Entry.t;
  feed_list : list Entry.feed_ref;
  entry_queue : list pickle;
  gui : Gui.t;
  log : list log_record;
}.

(** [feed.display = value] and [feed.enabled = value], lines 161-172 of
    [feed.py]. *)
Definition set_display (v : json) (f : Feed.t) : Feed.t :=
  Feed.Build (Feed.url f) (Feed.enabled f) (Feed.entries f) (Feed.feed f) v
             (Feed.icon f).

Definition set_enabled (v : json) (f : Feed.t) : Feed.t :=
  Feed.Build (Feed.url f) v (Feed.entries f) (Feed.feed f) (Feed.display f)
             (Feed.icon f).

(** [v == b] for a truth value [b]: in Python [True == 1] and
    [False == 0]. *)
Definition eq_bool (v : json) (b : bool) : bool :=
  match v with
  | JBool b' => eqb b' b
  | JNum n => n =? (if b then 1 else 0)
  | _ => false
  end.

(** [FeedList.entries], lines 200-207 of [feed.py]. *)
Definition entries (self : t) : list Feed.entry_ref :=
  foldl (fun acc r =>
           let feed := feed_objs self !!! r in
           if truthy (Feed.enabled feed) then acc ++ Feed.entries feed
           else acc)
        [] (feed_list self).

(** [list.remove(x)]: the first occurrence goes; [ValueError] when there
    is none. *)
Fixpoint list_remove (x : nat) (l : list nat) : result (list nat) :=
  match l with
  | [] => Raise (Exn ValueError "list.remove(x): x not in list")
  | y :: rest =>
      if decide (y = x) then Ok rest
      else rest' ← list_remove x rest; Ok (y :: rest')
  end.

(** [add_feed], lines 56-68.  On success the constructor of the feed has
    also started its download thread. *)
Definition add_feed (w : Feed.world) (url : string) (self : t)
  : result (option Entry.feed_ref) * t :=
  match Feed.init w url JNull (JBool true) with
  | Ok feed =>
      (Ok (Some (length (feed_objs self))),
       Build (feed_objs self ++ [feed]) (entry_objs self)
             (feed_list self ++ [length (feed_objs self)])
             (entry_queue self) (gui self) (log self))
  | Raise e =>
      if decide (exn_cls e = FeedParseError)
      then (Ok None,
            Build (feed_objs self) (entry_objs self) (feed_list self)
                  (entry_queue self) (gui self)
                  (log self ++ [LogError ("Failed to add feed at " +:+ url
                                          +:+ ": " +:+ exn_msg e)]))
      else (Raise e, self)
  end.

(** [edit_feed], lines 70-75. *)
Definition edit_feed (feed : Entry.feed_ref) (display : string)
    (enabled : bool) (self : t) : result unit * t :=
  let objs := alter (set_display (JStr display)) feed (feed_objs self) in
  if eq_bool (Feed.enabled (objs !!! feed)) enabled
  then (Ok (),
        Build objs (entry_objs self) (feed_list self) (entry_queue self)
              (gui self) (log self))
  else
    let objs' := alter (set_enabled (JBool enabled)) feed objs in
    let '(r, g, l) := Gui.reload_feed (objs' !!! feed) (gui self) in
    (r, Build objs' (entry_objs self) (feed_list self) (entry_queue self) g
              (log self ++ l)).

(** [remove_feed], lines 77-81. *)
Definition remove_feed (feed : Entry.feed_ref) (self : t)
  : result unit * t :=
  let objs := alter (set_enabled (JBool false)) feed (feed_objs self) in
  match list_remove feed (feed_list self) with
  | Raise e =>
      (Raise e,
       Build objs (entry_objs self) (feed_list self) (entry_queue self)
             (gui self) (log self))
  | Ok feeds =>
      let '(r, g, l) := Gui.reload_feed (objs !!! feed) (gui self) in
      (r, Build objs (entry_objs self) feeds (entry_queue self) g
                (log self ++ l))
  end.

(** Unpickling creates every object of the pickle anew: the copies come
    after the objects that exist, and their references are moved along. *)
Definition relocate_entry (feeds_at : nat) (e : Entry.t) : Entry.t :=
  Entry.set_parent (feeds_at + Entry.parent_feed e)%nat e.

Definition relocate_feed (entries_at : nat) (f : Feed.t) : Feed.t :=
  Feed.Build (Feed.url f) (Feed.enabled f)
             ((fun r => (entries_at + r)%nat) <$> Feed.entries f)
             (Feed.feed f) (Feed.display f) (Feed.icon f).

(** [self._entry_queue.get(block=False)] for the pickle [p] at the head of
    the queue: the entry returned is the new copy of the root. *)
Definition unpickle (p : pickle) (self : t) : Feed.entry_ref * t :=
  let entries_at := length (entry_objs self) in
  let feeds_at := length (feed_objs self) in
  ((entries_at + root p)%nat,
   Build (feed_objs self ++ (relocate_feed entries_at <$> feed_copies p))
         (entry_objs self ++ (relocate_entry feeds_at <$> entry_copies p))
         (feed_list self) (entry_queue self) (gui self) (log self)).

(** [entry.parent_feed] *)
Definition parent_of (self : t) (e : Feed.entry_ref) : Feed.t :=
  feed_objs self !!! Entry.parent_feed (entry_objs self !!! e).

(** [update_entries], lines 49-53, with no producer running meanwhile:
    [pending] is what is left in the queue, and [rnd n] what
    [random.randint] answers when the entry number [n] is placed. *)
Fixpoint drain (rnd : nat -> nat) (pending : list pickle) (self : t)
  : result unit * t :=
  match pending with
  | [] =>
      (Ok (),
       Build (feed_objs self) (entry_objs self) (feed_list self) []
             (gui self) (log self))
  | p :: rest =>
      let '(e, got) := unpickle p self in
      let n := S (EntryList.entry_count (Gui.entry_list (gui got))) in
      let '(r, g) := Gui.add_entry (rnd n) (parent_of got e) e (gui got) in
      let self' := Build (feed_objs got) (entry_objs got) (feed_list got)
                         rest g (log got) in
      match r with
      | Ok _ => drain rnd rest self'
      | Raise x => (Raise x, self')
      end
  end.

Definition update_entries (rnd : nat -> nat) (self : t) : result unit * t :=
  drain rnd (entry_queue self) self.

(** The widget [it] of the controller [after] shows the pickle [p]: its
    entry is an object that [before] did not have, with the content of the
    entry that was put and a parent that [before] did not have either,
    with the URL and the enabled state of the parent as it was pickled;
    and the widget is visible exactly when that state is truthy. *)
Definition shows (before after : t) (p : pickle) (it : EntryList.item)
  : Prop :=
  exists e f e' f',
    sent p = Some e
    /\ sent_parent p = Some f
    /\ (length (entry_objs before) <= EntryList.entry it)%nat
    /\ entry_objs after !! EntryList.entry it = Some e'
    /\ Entry.same_content e e'
    /\ (length (feed_objs before) <= Entry.parent_feed e')%nat
    /\ feed_objs after !! Entry.parent_feed e' = Some f'
    /\ Feed.url f' = Feed.url f
    /\ Feed.enabled f' = Feed.enabled f
    /\ EntryList.visible it = truthy (Feed.enabled f).

(** The end of [run], lines 45-46: the feed list is saved, then the
    cache. *)
Definition shutdown {V : Type} (cache_path : string)
    (io_feeds io_cache : write_io) (data_path : string) (self : t)
    (file : FeedList.feed_file) (cache : EntryCache.t V)
    (cache_file : EntryCache.cache_file V)
  : result unit * FeedList.feed_file * EntryCache.cache_file V
    * list log_record :=
  let feeds := (fun r => feed_objs self !!! r) <$> feed_list self in
  let '(r, file', l) := FeedList.save io_feeds data_path feeds file in
  match r with
  | Raise e => (Raise e, file', cache_file, log self ++ l)
  | Ok _ =>
      let '(r', cache_file', l') :=
        EntryCache.save cache_path io_cache cache cache_file in
      (r', file', cache_file', log self ++ l ++ l')
  end.

End Controller.

(** ** Sample inputs *)

Module Sample.
Import EntryCache.

(** A cache of numbered entries in which the link ["a"] was stored, read,
    and stored again. *)
Definition overwritten : EntryCache.t nat :=
  apply (apply (apply (fresh (Unreadable (Exn OSError "No such file")))
                      (Put "a" 1%nat)) (Get "a")) (Put "a" 2%nat).

(** A cache in which the link ["b"] was stored and read. *)
Definition read_before : EntryCache.t nat :=
  apply (apply (fresh (Unreadable (Exn OSError "No such file")))
               (Put "b" 0%nat)) (Get "b").

Definition noon (day : Z) : Time.struct_time := Time.StructTime day 12 0 0.

Definition article : Newspaper.Article :=
  Newspaper.Build_Article "<p>text</p>" "https://example.org/a.png".

Definition dated (date : Time.struct_time) : Feedparser.entry :=
  Feedparser.Entry "https://example.org/a" "A" None (Some date).

Definition entry_at (now : Time.datetime) (raw : Feedparser.entry) : Entry.t :=
  Entry.init now 0%nat (Newspaper.Build_Article "" "") raw "" None None.

(** A feed of two raw entries, the first of which is in the cache. *)
Definition raw_a : Feedparser.entry := dated (noon 737999).

Definition raw_b : Feedparser.entry :=
  Feedparser.Entry "https://example.org/b" "B" (Some (noon 738000)) None.

Definition cached_a : Entry.t :=
  Entry.Build 7%nat "A" "https://example.org/a" "<p>old</p>" None "" None
              "2 days ago".

Definition pool_state : Feed.state :=
  Feed.State [cached_a]
             (EntryCache.Build {["https://example.org/a" := 0%nat]} ∅)
             (Feed.Build "https://example.org/rss" (JBool true) []
                         [raw_a; raw_b] (JStr "EXAMPLE") None)
             [] [].

Definition answer : Feed.answers :=
  Feed.Answers (Ok article)
               (Raise (Exn OtherException "connection refused"))
               (Time.DateTime 738000 13 0 0 0).

(** The two workers take turns. *)
Definition turns : list nat := mjoin (replicate 10 [0%nat; 1%nat]).

(** A world in which one feed URL parses and every other one does not. *)
Definition good_url : string := "https://good.example/rss".
Definition bad_url : string := "https://bad.example/rss".

Definition world : Feed.world :=
  Feed.World
    (fun url => if String.eqb url good_url then Ok [raw_a]
                else Raise (Exn OtherException "not a feed"))
    (fun _ => Ok (Some "example.org"))
    (fun _ => Ok "EXAMPLE")
    (fun _ => Raise (Exn OtherException "connection refused")).

Definition record (url : string) : json :=
  JObj [("url", JStr url); ("display", JStr "Name"); ("enabled", JBool true)].

Definition bad_then_good : FeedList.feed_file :=
  FeedList.Holds (JArr [record bad_url; record good_url]).

Definition good_then_bad : FeedList.feed_file :=
  FeedList.Holds (JArr [record good_url; record bad_url]).

Definition empty_list : FeedList.state := FeedList.State [] [].

End Sample.

Module SampleMore.

(** A feed with one raw entry, nothing cached and nothing downloaded. *)
Definition empty_state : Feed.state :=
  Feed.State [] (EntryCache.Build ∅ ∅)
             (Feed.Build "https://example.org/rss" (JBool true) []
                         [Sample.raw_b] (JStr "EXAMPLE") None)
             [] [].

(** The answers of [Sample.answer], but the article cannot be fetched. *)
Definition failing_answer : Feed.answers :=
  Feed.Answers (Raise (Exn OtherException "404"))
               (Feed.image Sample.answer) (Feed.now Sample.answer).

(** A file of three records of which the second does not parse. *)
Definition good_bad_good : FeedList.feed_file :=
  FeedList.Holds (JArr [Sample.record Sample.good_url;
                        Sample.record Sample.bad_url;
                        Sample.record Sample.good_url]).

(** A disabled feed whose URL ends in blanks. *)
Definition padded_feed : Feed.t :=
  Feed.Build "https://good.example/rss  " (JBool false) [] []
             (JStr "Mine") None.

(** Two feeds that both list the raw entry [Sample.raw_a], whose link the
    store binds to an entry object of some other feed. *)
Definition two_pools : Pools.shared :=
  Pools.Shared
    [Sample.cached_a]
    (EntryCache.Build {[ "https://example.org/a" := 0%nat ]} ∅)
    [Feed.Build "https://one.example/rss" (JBool true) [] [Sample.raw_a]
                (JStr "ONE") None;
     Feed.Build "https://two.example/rss" (JBool true) [] [Sample.raw_a]
                (JStr "TWO") None]
    [] [].

(** The worker of the first feed runs up to its re-parenting of the
    cached entry, then the worker of the second feed does, then the first
    one appends and pushes. *)
Definition overtaken : list nat :=
  [0; 0; 0; 1; 1; 1; 0; 0]%nat.

(** The pickle of an entry that was put when its parent feed, the feed
    [padded_feed], was enabled and had this entry only. *)
Definition put_while_enabled : Controller.pickle :=
  Controller.Pickle
    0%nat
    [Entry.set_parent 0%nat Sample.cached_a]
    [Feed.Build (Feed.url padded_feed) (JBool true) [0%nat] []
                (JStr "Mine") None].

(** A controller with two feeds in its list, the first of them disabled
    by now, the pickle of an entry of the first feed waiting in the queue,
    and an entry list just built. *)
Definition two_feeds : Controller.t :=
  Controller.Build
    [Feed.Build (Feed.url padded_feed) (JBool false) [0%nat] []
                (JStr "Mine") None;
     Controller.set_enabled (Py.JBool true) padded_feed]
    [Entry.set_parent 0%nat Sample.cached_a] [0%nat; 1%nat]
    [put_while_enabled]
    (Gui.Build EntryList.init) [].

(** A controller whose only feed is enabled and has one entry. *)
Definition one_read : Controller.t :=
  Controller.Build
    [Feed.Build "https://good.example/rss" (JBool true) [0%nat] []
                (JStr "Mine") None]
    [Sample.cached_a] [0%nat] [] (Gui.Build EntryList.init) [].

End SampleMore.

(** * Properties *)

(** ** The entry cache *)

Module EntryCacheFacts.
Import EntryCache.

Section Generic.

Context {Entry : Type} (cache_path : string).
Implicit Types (c : EntryCache.t Entry) (l link : string) (e : Entry)
  (f : cache_file Entry).

Lemma getitem_Some d l e : d !! l = Some e -> getitem d l = Ok e.
Proof. unfold getitem. by intros ->. Qed.

Lemma getitem_None (d : gmap string Entry) l :
  d !! l = None -> getitem d l = Raise (Exn KeyError l).
Proof. unfold getitem. by intros ->. Qed.

Lemma get_hit c l e :
  entries c !! l = Some e -> get l c = (Ok (Some e), mark l e c).
Proof. intros H. unfold get. by rewrite (getitem_Some _ _ _ H). Qed.

Lemma get_miss c l : entries c !! l = None -> get l c = (Ok None, c).
Proof. intros H. unfold get. by rewrite (getitem_None _ _ H). Qed.

(** [get] returns what the store binds to the link and never raises. *)
Lemma get_result c l : (get l c).1 = Ok (entries c !! l).
Proof.
  destruct (entries c !! l) as [e|] eqn:H.
  - by rewrite (get_hit _ _ _ H).
  - by rewrite (get_miss _ _ H).
Qed.

Lemma get_entries c l : entries (get l c).2 = entries c.
Proof.
  destruct (entries c !! l) as [e|] eqn:H.
  - by rewrite (get_hit _ _ _ H).
  - by rewrite (get_miss _ _ H).
Qed.

Lemma apply_dom c o :
  dom (used c) ⊆ dom (entries c) ->
  dom (used (apply c o)) ⊆ dom (entries (apply c o)).
Proof.
  intros IH. destruct o as [l|l e]; simpl.
  - destruct (entries c !! l) as [e|] eqn:H.
    + rewrite (get_hit _ _ _ H). simpl. rewrite dom_insert.
      apply union_least; [|done].
      apply singleton_subseteq_l. by eapply elem_of_dom_2.
    + by rewrite (get_miss _ _ H).
  - rewrite dom_insert. set_solver.
Qed.

Lemma fresh_used f : used (fresh f) = ∅.
Proof. unfold fresh, init. by destruct (pickle_load f). Qed.

Lemma fresh_pickled (d : gmap string Entry) : entries (fresh (Pickled d)) = d.
Proof. reflexivity. Qed.

(** C4: [put(l, e)] then [get(l)] returns [e] itself, hence an entry equal
    to [e] in every field; [get] on a link that the store does not bind
    returns [None] and changes nothing, [used] included; [get] on a link
    that the store binds returns the bound entry and binds the link to it in
    [used]. *)
Theorem put_get_round_trip :
  (forall c l e, (get l (put l e c)).1 = Ok (Some e))
  /\ (forall c l, entries c !! l = None -> get l c = (Ok None, c))
  /\ (forall c l e,
        entries c !! l = Some e ->
        (get l c).1 = Ok (Some e)
        /\ used (get l c).2 = <[l := e]> (used c)
        /\ entries (get l c).2 = entries c).
Proof.
  split; [|split].
  - intros c l e. rewrite get_result. simpl. by rewrite lookup_insert_eq.
  - apply get_miss.
  - intros c l e H. by rewrite (get_hit _ _ _ H).
Qed.

(** C3, as amended: in every cache that construction, [get] and [put] can
    produce, every link bound in [used] is bound in the store. *)
Theorem used_links_in_store c :
  reachable c -> dom (used c) ⊆ dom (entries c).
Proof.
  induction 1 as [f|c o _ IH].
  - rewrite fresh_used. set_solver.
  - by apply apply_dom.
Qed.

(** C2, as amended: when [used] does not bind [l2], after [put(l1, e1)],
    [put(l2, e2)], [get(l1)] and a [save] that writes the file, a cache
    constructed from that file binds [l1] (to [e1]) and does not bind
    [l2]: its store is the [used] map that was saved. *)
Theorem save_keeps_used_only c l1 l2 e1 e2 f :
  l1 <> l2 ->
  used c !! l2 = None ->
  let c' := (get l1 (put l2 e2 (put l1 e1 c))).2 in
  let f' := (save cache_path WriteOk c' f).1.2 in
  entries (fresh f') !! l1 = Some e1
  /\ entries (fresh f') !! l2 = None
  /\ entries (fresh f') = used c'.
Proof.
  intros Hne Hl2 c' f'.
  assert (Hhit : entries (put l2 e2 (put l1 e1 c)) !! l1 = Some e1).
  { simpl. rewrite lookup_insert_ne by done. apply lookup_insert_eq. }
  subst c' f'. rewrite (get_hit _ _ _ Hhit). simpl. split_and!.
  - apply lookup_insert_eq.
  - by rewrite lookup_insert_ne.
  - done.
Qed.

End Generic.

(** C3 as stated fails: [Sample.overwritten] is reachable, [used] still
    binds ["a"] to the first entry, the store binds it to the second. *)
Lemma used_binding_differs :
  reachable Sample.overwritten
  /\ ~ (used Sample.overwritten ⊆ entries Sample.overwritten).
Proof.
  split.
  - unfold Sample.overwritten. repeat apply reach_step. apply reach_init.
  - intros Hsub.
    assert (Hu : used Sample.overwritten !! "a" = Some 1%nat) by reflexivity.
    assert (He : entries Sample.overwritten !! "a" = Some 2%nat) by reflexivity.
    pose proof (lookup_weaken _ _ _ _ Hu Hsub) as H.
    rewrite He in H. discriminate.
Qed.

Lemma used_links_in_store_witness :
  reachable Sample.overwritten
  /\ dom (used Sample.overwritten) ⊆ dom (entries Sample.overwritten).
Proof.
  assert (H : reachable Sample.overwritten).
  { unfold Sample.overwritten. repeat apply reach_step. apply reach_init. }
  split; [exact H | exact (used_links_in_store Sample.overwritten H)].
Defined.

(** C2 as stated fails.  From [read_before], where the link ["b"] was read
    earlier, the sequence [put("a", 1)], [put("b", 2)], [get("a")], [save]
    leaves a file from which a fresh cache binds ["b"] as well.  And when
    [save] cannot open the file, the failure is logged only and a fresh
    cache binds neither link. *)
Lemma saved_cache_contains_other :
  (reachable Sample.read_before /\
   let c' := (get "a" (put "b" 2%nat (put "a" 1%nat Sample.read_before))).2 in
   let f' := (save "entries.pickle" WriteOk c'
                   (Unreadable (Exn OSError "No such file"))).1.2 in
   ~ (is_Some (entries (fresh f') !! "a") /\ entries (fresh f') !! "b" = None))
  /\ (let f := Unreadable (Exn OSError "No such file") in
      let c' := (get "a" (put "b" 2%nat (put "a" 1%nat (fresh f)))).2 in
      let f' := (save "entries.pickle"
                      (OpenFails (Exn OSError "Permission denied")) c' f).1.2 in
      ~ (is_Some (entries (fresh f') !! "a")
         /\ entries (fresh f') !! "b" = None)).
Proof.
  split; [split|].
  - unfold Sample.read_before. repeat apply reach_step. apply reach_init.
  - intros c' f' [_ H].
    assert (Hb : entries (fresh f') !! "b" = Some 0%nat) by reflexivity.
    rewrite Hb in H. discriminate.
  - intros f c' f' [[e H] _].
    assert (Ha : entries (fresh f') !! "a" = None) by reflexivity.
    rewrite Ha in H. discriminate.
Qed.

Lemma save_keeps_used_only_witness :
  let c : EntryCache.t nat := fresh (Pickled {["b" := 7%nat]}) in
  let c' := (get "a" (put "b" 2%nat (put "a" 1%nat c))).2 in
  let f' := (save "entries.pickle" WriteOk c' (Pickled {["b" := 7%nat]})).1.2 in
  entries (fresh f') !! "a" = Some 1%nat /\ entries (fresh f') !! "b" = None.
Proof.
  intros c c' f'.
  destruct (save_keeps_used_only
              "entries.pickle" c "a" "b" 1%nat 2%nat
              (Pickled {["b" := 7%nat]})) as (Ha & Hb & _).
  - discriminate.
  - reflexivity.
  - split; [exact Ha | exact Hb].
Defined.

Lemma put_get_round_trip_witness :
  let c : EntryCache.t nat := fresh (Pickled {["b" := 7%nat]}) in
  get "a" c = (Ok None, c)
  /\ (get "b" c).1 = Ok (Some 7%nat)
  /\ used (get "b" c).2 = <["b" := 7%nat]> (used c).
Proof.
  intros c.
  destruct (@put_get_round_trip nat) as (_ & Hmiss & Hhit).
  split.
  - apply Hmiss. reflexivity.
  - destruct (Hhit c "b" 7%nat) as (H1 & H2 & _); [reflexivity|].
    split; [exact H1 | exact H2].
Defined.

End EntryCacheFacts.

(** ** The relative date of an entry *)

Module EntryFacts.
Import Time Entry.

(** [timedelta] carries so that the instant is kept and the fields are in
    range. *)
Lemma timedelta_new_spec d s us :
  let t := timedelta_new d s us in
  (d * 86400 + s) * 1000000 + us
    = (days t * 86400 + seconds t) * 1000000 + microseconds t
  /\ 0 <= seconds t < 86400
  /\ 0 <= microseconds t < 1000000.
Proof.
  unfold timedelta_new. cbn [days seconds microseconds].
  pose proof (Z.div_mod s 86400 ltac:(lia)) as Hs.
  pose proof (Z.mod_pos_bound s 86400 ltac:(lia)) as Hsb.
  pose proof (Z.div_mod us 1000000 ltac:(lia)) as Hu.
  pose proof (Z.mod_pos_bound us 1000000 ltac:(lia)) as Hub.
  set (s1 := s mod 86400 + us / 1000000).
  pose proof (Z.div_mod s1 86400 ltac:(lia)) as Hs1.
  pose proof (Z.mod_pos_bound s1 86400 ltac:(lia)) as Hs1b.
  subst s1. repeat split; lia.
Qed.

(** The fields of [now - date] in terms of the whole seconds between the
    two. *)
Lemma sub_fields now date :
  let delta := sub now date in
  let s := elapsed_seconds now date in
  days delta = s / 86400 /\ seconds delta = s mod 86400.
Proof.
  intros delta s.
  destruct (timedelta_new_spec
              (toordinal now - toordinal date)
              (second now + minute now * 60 + hour now * 3600
               - (second date + minute date * 60 + hour date * 3600))
              (microsecond now - microsecond date)) as (Heq & Hs & Hu).
  fold (sub now date) in Heq, Hs, Hu. fold delta in Heq, Hs, Hu.
  assert (Hsec : s = days delta * 86400 + seconds delta).
  { subst s. unfold elapsed_seconds, instant.
    symmetry. apply (Z.div_unique_pos _ _ _ (microseconds delta)); lia. }
  split.
  - apply (Z.div_unique_pos _ _ _ (seconds delta)); lia.
  - apply (Z.mod_unique_pos _ _ (days delta)); lia.
Qed.

Lemma construct_date_relative now date :
  construct_date now date = relative_date (sub now date).
Proof.
  unfold construct_date, relative_date, largest_applicable, candidates,
    describe.
  cbn [List.find fst].
  destruct (0 <? days (sub now date) / 30); [by destruct (1 <? _)|].
  destruct (0 <? days (sub now date)); [by destruct (1 <? _)|].
  destruct (0 <? seconds (sub now date) / 3600); by destruct (1 <? _).
Qed.

Lemma relative_date_seconds now date :
  0 <= elapsed_seconds now date ->
  relative_date (sub now date)
  = relative_date_of_seconds (elapsed_seconds now date).
Proof.
  intros Hpos.
  destruct (sub_fields now date) as [Hd Hs].
  set (s := elapsed_seconds now date) in *.
  unfold relative_date, largest_applicable, candidates,
    relative_date_of_seconds.
  cbn [List.find fst]. rewrite Hd, Hs.
  pose proof (Z.div_mod s 86400 ltac:(lia)) as Hdm.
  pose proof (Z.mod_pos_bound s 86400 ltac:(lia)) as Hmb.
  pose proof (Z.div_mod (s / 86400) 30 ltac:(lia)) as Hdm30.
  pose proof (Z.mod_pos_bound (s / 86400) 30 ltac:(lia)) as Hmb30.
  assert (0 <= s / 86400) by (apply Z.div_pos; lia).
  destruct (Z.ltb_spec 0 (s / 86400 / 30)) as [Hm|Hm];
    destruct (Z.leb_spec (30 * 86400) s) as [Hm'|Hm']; try lia; [done|].
  destruct (Z.ltb_spec 0 (s / 86400)) as [Hday|Hday];
    destruct (Z.leb_spec 86400 s) as [Hday'|Hday']; try lia; [done|].
  assert (Hsmall : s mod 86400 = s) by (apply Z.mod_small; lia).
  rewrite Hsmall.
  pose proof (Z.div_mod s 3600 ltac:(lia)) as Hdmh.
  pose proof (Z.mod_pos_bound s 3600 ltac:(lia)) as Hmbh.
  destruct (Z.ltb_spec 0 (s / 3600)) as [Hh|Hh];
    destruct (Z.leb_spec 3600 s) as [Hh'|Hh']; try lia; done.
Qed.

Lemma relative_date_seconds_ahead now date :
  elapsed_seconds now date < 0 ->
  relative_date (sub now date)
  = relative_date_of_seconds (elapsed_seconds now date mod 86400).
Proof.
  intros Hneg.
  destruct (sub_fields now date) as [Hd Hs].
  set (es := elapsed_seconds now date) in *.
  unfold relative_date, largest_applicable, candidates,
    relative_date_of_seconds.
  cbn [List.find fst]. rewrite Hd, Hs.
  pose proof (Z.div_mod es 86400 ltac:(lia)) as Hdm.
  pose proof (Z.mod_pos_bound es 86400 ltac:(lia)) as Hmb.
  set (m := es mod 86400) in *.
  pose proof (Z.div_mod (es / 86400) 30 ltac:(lia)) as Hdm30.
  pose proof (Z.mod_pos_bound (es / 86400) 30 ltac:(lia)) as Hmb30.
  pose proof (Z.div_mod m 3600 ltac:(lia)) as Hdmh.
  pose proof (Z.mod_pos_bound m 3600 ltac:(lia)) as Hmbh.
  destruct (Z.ltb_spec 0 (es / 86400 / 30)); [lia|].
  destruct (Z.ltb_spec 0 (es / 86400)); [lia|].
  destruct (Z.leb_spec (30 * 86400) m); [lia|].
  destruct (Z.leb_spec 86400 m); [lia|].
  destruct (Z.ltb_spec 0 (m / 3600));
    destruct (Z.leb_spec 3600 m); try lia; done.
Qed.

(** The datetime built from the first six items of a [struct_time] is as
    far from [now] as the items say. *)
Lemma seconds_since_elapsed now stamp :
  seconds_since now stamp = elapsed_seconds now (of_struct_time stamp).
Proof.
  unfold seconds_since, elapsed_seconds, instant, of_struct_time.
  cbn [toordinal hour minute second microsecond]. f_equal. lia.
Qed.

(** The time that [__init__] dates the entry by: the published one when
    the raw entry has it, and else the created one. *)
Lemma init_date now parent article raw url img icon_image stamp :
  Feedparser.published_parsed raw = Some stamp
  \/ (Feedparser.published_parsed raw = None
      /\ Feedparser.created_parsed raw = Some stamp) ->
  Entry.date (init now parent article raw url img icon_image)
  = construct_date now (of_struct_time stamp).
Proof.
  unfold init, timestamp. intros [Hp | [Hp Hc]]; by rewrite Hp, ?Hc.
Qed.

(** C5, amended: for a raw entry that carries a timestamp (the published
    one, or else the created one) which is not later than the clock, the
    date of the entry expresses the whole seconds [s] that have passed from
    the timestamp to the clock in the largest applicable unit: months (the
    days divided by 30, rounded down) from 30 days on, else days from one
    day on, else hours from one hour on, else minutes, with the unit in the
    plural exactly when the value exceeds one.  90 days give "3 months
    ago", 5 hours "5 hours ago", 1 minute "1 minute ago".  For a timestamp
    later than the clock the date is that of [s mod 86400] seconds.  A raw
    entry with neither timestamp has the empty date. *)
Theorem relative_date_format now parent article raw url img icon_image :
  let e := init now parent article raw url img icon_image in
  (forall stamp,
     Feedparser.published_parsed raw = Some stamp
     \/ (Feedparser.published_parsed raw = None
         /\ Feedparser.created_parsed raw = Some stamp) ->
     let s := seconds_since now stamp in
     (0 <= s -> Entry.date e = relative_date_of_seconds s)
     /\ (s < 0 -> Entry.date e = relative_date_of_seconds (s mod 86400))
     /\ (s = 90 * 86400 -> Entry.date e = "3 months ago")
     /\ (s = 5 * 3600 -> Entry.date e = "5 hours ago")
     /\ (s = 60 -> Entry.date e = "1 minute ago"))
  /\ (Feedparser.published_parsed raw = None ->
      Feedparser.created_parsed raw = None ->
      Entry.date e = "").
Proof.
  intros e. subst e. split.
  - intros stamp Hts s. subst s.
    rewrite (init_date _ _ _ _ _ _ _ _ Hts), construct_date_relative,
      seconds_since_elapsed.
    set (s := elapsed_seconds now (of_struct_time stamp)).
    assert (Hs : 0 <= s ->
                 relative_date (sub now (of_struct_time stamp))
                 = relative_date_of_seconds s)
      by apply relative_date_seconds.
    split; [done|].
    split; [apply relative_date_seconds_ahead|].
    repeat split; intros Heq; rewrite Hs by lia; by rewrite Heq.
  - intros Hp Hc. unfold init, timestamp. by rewrite Hp, Hc.
Qed.

Lemma relative_date_format_witness :
  Entry.date (Sample.entry_at (DateTime 738000 12 0 0 250000)
                              (Sample.dated (Sample.noon 737910)))
  = "3 months ago"
  /\ Entry.date (Sample.entry_at (DateTime 738000 17 0 30 0) Sample.raw_b)
     = "5 hours ago"
  /\ Entry.date (Sample.entry_at (DateTime 738000 12 1 0 999999)
                                 (Sample.dated (Sample.noon 738000)))
     = "1 minute ago"
  /\ Entry.date (Sample.entry_at (DateTime 738000 12 0 0 0)
                          (Feedparser.Entry "https://example.org/a" "A"
                                            None None))
     = "".
Proof.
  split; [|split; [|split]].
  - destruct (proj1 (relative_date_format
                       (DateTime 738000 12 0 0 250000) 0%nat
                       (Newspaper.Build_Article "" "")
                       (Sample.dated (Sample.noon 737910))
                       "" None None)
                    (Sample.noon 737910) (or_intror (conj eq_refl eq_refl)))
      as (_ & _ & H & _).
    apply H. reflexivity.
  - destruct (proj1 (relative_date_format
                       (DateTime 738000 17 0 30 0) 0%nat
                       (Newspaper.Build_Article "" "") Sample.raw_b
                       "" None None)
                    (Sample.noon 738000) (or_introl eq_refl))
      as (H & _).
    unfold Sample.entry_at. rewrite H; [reflexivity | vm_compute; discriminate].
  - destruct (proj1 (relative_date_format
                       (DateTime 738000 12 1 0 999999) 0%nat
                       (Newspaper.Build_Article "" "")
                       (Sample.dated (Sample.noon 738000))
                       "" None None)
                    (Sample.noon 738000) (or_intror (conj eq_refl eq_refl)))
      as (_ & _ & _ & _ & H).
    apply H. reflexivity.
  - apply (proj2 (relative_date_format
                    (DateTime 738000 12 0 0 0) 0%nat
                    (Newspaper.Build_Article "" "")
                    (Feedparser.Entry "https://example.org/a" "A" None None)
                    "" None None)); reflexivity.
Defined.

(** C5 as stated fails for a timestamp ahead of the clock: an entry
    published one second after the clock's time is dated "23 hours ago",
    which is not the elapsed time of minus one second in any unit. *)
Lemma future_timestamp_not_elapsed :
  let now := DateTime 738000 12 0 0 0 in
  let stamp := StructTime 738000 12 0 1 in
  let raw := Feedparser.Entry "https://example.org/a" "A" (Some stamp) None in
  seconds_since now stamp = -1
  /\ Entry.date (Sample.entry_at now raw) = "23 hours ago"
  /\ ~ (Entry.date (Sample.entry_at now raw)
        = relative_date_of_seconds (seconds_since now stamp)).
Proof. split; [reflexivity|]. split; [reflexivity|]. discriminate. Qed.

(** A timestamp half a minute ahead of the clock is dated by the fields of
    the negative [timedelta]: minus one day and 86370 seconds. *)
Example date_of_future_timestamp :
  construct_date (DateTime 738000 12 0 0 0) (DateTime 738000 12 0 30 0)
  = "23 hours ago".
Proof. reflexivity. Qed.

End EntryFacts.

(** ** Feeds: image download and the cache-hit path *)

Module FeedFacts.
Import Feed.

Lemma download_image_cases response :
  download_image response
  = Ok match response with
       | Ok r => if Requests.status_code r =? 200
                 then Some (Requests.content r) else None
       | Raise _ => None
       end.
Proof.
  unfold download_image. destruct response as [r|e]; simpl; [|done].
  by destruct (Requests.status_code r =? 200).
Qed.

(** [__init__] when every collaborator but the icon download answers. *)
Lemma init_icon w url display enabled parsed first host shown :
  feedparser_parse w url = Ok parsed ->
  first_entry parsed = Ok first ->
  urlparse_hostname w (Feedparser.link first) = Ok host ->
  (if truthy display then Ok display
   else brand ← source_brand_upper w (Feedparser.link first); Ok (JStr brand))
  = Ok shown ->
  exists img,
    download_image (requests_get w (favicon_url host)) = Ok img
    /\ init w url display enabled = Ok (Build url enabled [] parsed shown img).
Proof.
  intros Hp Hf Hh Hs. unfold init.
  rewrite Hp. simpl. rewrite Hf. simpl. rewrite Hh. simpl.
  rewrite Hs. simpl. rewrite download_image_cases. simpl. eauto.
Qed.

(** C9: the image download never raises; it returns the bytes of the
    response exactly when the request returns a response with status 200,
    and [None] when the request raises or the status is another one.  So
    the worker at the image download always goes on to construct the entry,
    and the constructor of a feed does not fail for its icon. *)
Theorem download_image_never_raises response :
  ~ raises (download_image response)
  /\ (forall b,
        download_image response = Ok (Some b)
        <-> exists r, response = Ok r /\ Requests.status_code r = 200
                      /\ Requests.content r = b)
  /\ ((forall r, response = Ok r -> Requests.status_code r <> 200) ->
      download_image response = Ok None)
  /\ (forall self d a p s,
        image a = response ->
        exists img,
          step self (Worker d a (AtImage p)) s
          = (Worker d a (AtConstruct p img), s))
  /\ (forall w url display enabled parsed first host shown,
        requests_get w (favicon_url host) = response ->
        feedparser_parse w url = Ok parsed ->
        first_entry parsed = Ok first ->
        urlparse_hostname w (Feedparser.link first) = Ok host ->
        (if truthy display then Ok display
         else brand ← source_brand_upper w (Feedparser.link first);
              Ok (JStr brand)) = Ok shown ->
        exists img, init w url display enabled
                    = Ok (Build url enabled [] parsed shown img)).
Proof.
  rewrite download_image_cases. split; [simpl; tauto|]. split; [|split; [|split]].
  - intros b. split.
    + destruct response as [r|e]; [|discriminate].
      destruct (Z.eqb_spec (Requests.status_code r) 200) as [H|H];
        [|discriminate].
      intros [= <-]. by exists r.
    + intros (r & -> & H & <-). by rewrite H, Z.eqb_refl.
  - intros H. destruct response as [r|e]; [|done].
    destruct (Z.eqb_spec (Requests.status_code r) 200) as [H'|H']; [|done].
    by destruct (H r eq_refl).
  - intros self d a p s Ha. unfold step. cbn [at_pc env].
    rewrite download_image_cases. eauto.
  - intros w url display enabled parsed first host shown _ Hp Hf Hh Hs.
    destruct (init_icon _ url _ enabled _ _ _ _ Hp Hf Hh Hs) as (img & _ & H).
    eauto.
Qed.

Lemma download_image_never_raises_witness :
  download_image (Ok (Requests.Build_Response 404 [])) = Ok None
  /\ download_image (Raise (Exn OtherException "connection refused")) = Ok None
  /\ download_image (Ok (Requests.Build_Response 200 [Byte.x2a]))
     = Ok (Some [Byte.x2a]).
Proof.
  split; [|split].
  - apply (proj1 (proj2 (proj2 (download_image_never_raises _)))).
    intros r [= <-]. discriminate.
  - apply (proj1 (proj2 (proj2 (download_image_never_raises _)))).
    intros r [=].
  - apply (proj1 (proj2 (download_image_never_raises _))).
    eexists. repeat split.
Defined.

(** *** The cache-hit path *)

Lemma step_get_hit self d a s r :
  EntryCache.entries (cache s) !! Feedparser.link d = Some r ->
  step self (Worker d a AtGet) s = (Worker d a (AtGetMark r), s).
Proof.
  intros H. unfold step. cbn [at_pc entry_data].
  by rewrite (EntryCacheFacts.getitem_Some _ _ _ H).
Qed.

Lemma same_content_set_parent self e :
  Entry.same_content e (Entry.set_parent self e).
Proof. by repeat split. Qed.

(** C6: when the store binds the link of the raw entry to an entry object,
    [download_entry] finishes with that very object: its parent is now the
    requesting feed and all its other fields are as before; no object is
    added to the heap and no other object changes; the object is appended to
    the feed's entries and pushed onto the queue. *)
Theorem cache_hit_reparents self d a s r e :
  EntryCache.entries (cache s) !! Feedparser.link d = Some r ->
  heap s !! r = Some e ->
  let '(w', s') := download_entry self d a s in
  at_pc w' = Finished r
  /\ heap s' !! r = Some (Entry.set_parent self e)
  /\ Entry.parent_feed (Entry.set_parent self e) = self
  /\ Entry.same_content e (Entry.set_parent self e)
  /\ length (heap s') = length (heap s)
  /\ (forall r', r' <> r -> heap s' !! r' = heap s !! r')
  /\ entries (self_feed s') = entries (self_feed s) ++ [r]
  /\ queue s' = queue s ++ [r]
  /\ EntryCache.entries (cache s') = EntryCache.entries (cache s).
Proof.
  intros Hhit Hobj. unfold download_entry.
  cbn [remaining run_worker].
  rewrite (step_get_hit _ _ _ _ _ Hhit). cbn.
  split_and!; try done.
  - by rewrite list_lookup_alter_eq, Hobj.
  - apply length_alter.
  - intros r' Hne. by rewrite list_lookup_alter_ne.
Qed.

Lemma cache_hit_reparents_witness :
  let '(w', s') :=
    download_entry 3%nat Sample.raw_a Sample.answer Sample.pool_state in
  at_pc w' = Finished 0%nat
  /\ heap s' !! 0%nat = Some (Entry.set_parent 3%nat Sample.cached_a)
  /\ Entry.parent_feed (Entry.set_parent 3%nat Sample.cached_a) = 3%nat
  /\ Entry.same_content Sample.cached_a (Entry.set_parent 3%nat Sample.cached_a)
  /\ length (heap s') = length (heap Sample.pool_state)
  /\ (forall r', r' <> 0%nat -> heap s' !! r' = heap Sample.pool_state !! r')
  /\ entries (self_feed s') = entries (self_feed Sample.pool_state) ++ [0%nat]
  /\ queue s' = queue Sample.pool_state ++ [0%nat]
  /\ EntryCache.entries (cache s')
     = EntryCache.entries (cache Sample.pool_state).
Proof.
  exact (cache_hit_reparents 3%nat Sample.raw_a Sample.answer
                             Sample.pool_state 0%nat Sample.cached_a
                             eq_refl eq_refl).
Defined.

End FeedFacts.

(** ** Feeds: the pool of download workers *)

Module PoolFacts.
Import Feed.

Implicit Types (w : worker) (s : state) (c : config) (p : list worker).

(** One statement appends to the feed's entries at most the entry that the
    worker's next statement will push, and pushes at most one entry. *)
Lemma step_effect self w s :
  exists new out,
    entries (self_feed (step self w s).2) = entries (self_feed s) ++ new
    /\ queue (step self w s).2 = queue s ++ out
    /\ (length new + appended w = appended (step self w s).1)%nat
    /\ (length out + pushed w = pushed (step self w s).1)%nat
    /\ feed (self_feed (step self w s).2) = feed (self_feed s).
Proof.
  destruct w as [d a []]; unfold step; cbn [at_pc entry_data env];
    repeat case_match; simpl;
    try (by exists [], []; rewrite !app_nil_r).
  - by eexists [_], []; rewrite app_nil_r.
  - by eexists [], [_]; rewrite app_nil_r.
Qed.

Lemma sum_list_insert {A} (f : A -> nat) (l : list A) i x y :
  l !! i = Some x ->
  (sum_list (f <$> <[i := y]> l) + f x = sum_list (f <$> l) + f y)%nat.
Proof.
  revert i. induction l as [|z l IH]; intros [|i] H; simplify_eq/=; [lia|].
  specialize (IH _ H). lia.
Qed.

Lemma pool_step_counted self be bq c i :
  counted be bq c -> counted be bq (pool_step self c i).
Proof.
  intros (new & out & He & Hq & Hn & Ho). unfold pool_step.
  destruct (c.1 !! i) as [w|] eqn:Hw; [|by exists new, out].
  destruct (step_effect self w c.2) as (new' & out' & He' & Hq' & Hn' & Ho' & _).
  destruct (step self w c.2) as [w' s'] eqn:Hstep. cbn [fst snd] in *.
  exists (new ++ new'), (out ++ out'). cbn [fst snd].
  rewrite He', Hq', He, Hq, !length_app, !app_assoc.
  pose proof (sum_list_insert appended _ _ _ w' Hw).
  pose proof (sum_list_insert pushed _ _ _ w' Hw).
  split_and!; [done|done|lia|lia].
Qed.

Lemma run_counted self be bq sched c :
  counted be bq c -> counted be bq (run self sched c).
Proof.
  revert c. induction sched as [|i sched IH]; intros c H; [done|].
  apply IH. by apply pool_step_counted.
Qed.

Lemma pool_step_length self c i :
  length (pool_step self c i).1 = length c.1.
Proof.
  unfold pool_step. destruct (c.1 !! i) as [w|]; [|done].
  destruct (step self w c.2). apply length_insert.
Qed.

Lemma run_length self sched c : length (run self sched c).1 = length c.1.
Proof.
  revert c. induction sched as [|i sched IH]; intros c; [done|].
  cbn [run foldl]. fold (run self sched (pool_step self c i)).
  by rewrite IH, pool_step_length.
Qed.

Lemma submit_lookup envs s i w :
  (submit envs s).1 !! i = Some w ->
  at_pc w = AtGet /\ env w = envs i.
Proof.
  unfold submit. cbn [fst]. rewrite list_lookup_imap.
  destruct (feed (self_feed s) !! i); by intros [= <-].
Qed.

Lemma submit_length envs s :
  length (submit envs s).1 = length (feed (self_feed s)).
Proof. apply length_imap. Qed.

Lemma submit_counted envs s :
  counted (entries (self_feed s)) (queue s) (submit envs s).
Proof.
  exists [], []. rewrite !app_nil_r. split_and!; try done.
  - rewrite (sum_list_fmap_same 0); [simpl; lia|].
    apply Forall_lookup. intros i w [Hpc _]%submit_lookup.
    unfold appended. by rewrite Hpc.
  - rewrite (sum_list_fmap_same 0); [simpl; lia|].
    apply Forall_lookup. intros i w [Hpc _]%submit_lookup.
    unfold pushed. by rewrite Hpc.
Qed.

Lemma finished_counts p :
  forallb over p = true ->
  Forall (fun w => failed w = false) p ->
  sum_list (appended <$> p) = length p /\ sum_list (pushed <$> p) = length p.
Proof.
  induction p as [|w p IH]; [done|].
  intros [Hw Hp]%andb_prop Hf. inversion Hf as [|? ? Hfw Hfp]; subst.
  destruct (IH Hp Hfp) as [IHa IHb]. rewrite !fmap_cons. simpl.
  rewrite IHa, IHb.
  unfold over, failed, appended, pushed in *.
  by destruct (at_pc w).
Qed.

(** Every statement brings the worker closer to its end. *)
Lemma step_remaining self w s :
  (remaining (at_pc (step self w s).1) <= pred (remaining (at_pc w)))%nat.
Proof.
  destruct w as [d a []]; unfold step; cbn [at_pc entry_data env];
    repeat case_match; simpl; lia.
Qed.

Lemma run_remaining self sched c i w :
  c.1 !! i = Some w ->
  exists w',
    (run self sched c).1 !! i = Some w'
    /\ (remaining (at_pc w')
        <= remaining (at_pc w) - count_occ Nat.eq_dec sched i)%nat.
Proof.
  revert c w. induction sched as [|j sched IH]; intros c w Hw.
  - exists w. split; [done|simpl; lia].
  - cbn [run foldl]. fold (run self sched (pool_step self c j)).
    destruct (decide (j = i)) as [->|Hne].
    + assert (Hstep : (pool_step self c i).1 !! i = Some (step self w c.2).1).
      { unfold pool_step. rewrite Hw.
        destruct (step self w c.2) as [w1 s1]. simpl.
        apply list_lookup_insert_eq. by eapply lookup_lt_Some. }
      destruct (IH _ _ Hstep) as (w' & Hw' & Hle).
      exists w'. split; [done|].
      pose proof (step_remaining self w c.2).
      rewrite count_occ_cons_eq by done. lia.
    + assert (Hstep : (pool_step self c j).1 !! i = Some w).
      { unfold pool_step. destruct (c.1 !! j) as [wj|]; [|done].
        destruct (step self wj c.2) as [w1 s1]. simpl.
        by rewrite list_lookup_insert_ne. }
      destruct (IH _ _ Hstep) as (w' & Hw' & Hle).
      exists w'. split; [done|].
      by rewrite count_occ_cons_neq.
Qed.

Lemma remaining_over w : remaining (at_pc w) = 0%nat -> over w = true.
Proof. unfold over. by destruct (at_pc w). Qed.

Lemma step_env self w s :
  env (step self w s).1 = env w
  /\ entry_data (step self w s).1 = entry_data w.
Proof.
  destruct w as [d a []]; unfold step; cbn [at_pc entry_data env];
    by repeat case_match.
Qed.

Lemma step_sound self w s : sound w -> sound (step self w s).1.
Proof.
  intros [Hf [art Ha]]. split.
  - destruct w as [d a []]; unfold step, failed in *;
      cbn [at_pc entry_data env] in *; try done.
    + unfold EntryCache.getitem.
      by destruct (EntryCache.entries (cache s) !! Feedparser.link d).
    + by rewrite Ha.
    + by rewrite FeedFacts.download_image_cases.
    + unfold EntryCache.getitem.
      by destruct (EntryCache.entries (cache s) !! Feedparser.link d).
  - rewrite (proj1 (step_env self w s)). eauto.
Qed.

Lemma pool_step_sound self c i :
  Forall sound c.1 -> Forall sound (pool_step self c i).1.
Proof.
  intros H. unfold pool_step.
  destruct (c.1 !! i) as [w|] eqn:Hw; [|done].
  pose proof (step_sound self w c.2) as Hs.
  destruct (step self w c.2) as [w' s']. simpl in *.
  apply Forall_insert; [done|]. apply Hs.
  by eapply Forall_lookup_1.
Qed.

Lemma run_sound self sched c :
  Forall sound c.1 -> Forall sound (run self sched c).1.
Proof.
  revert c. induction sched as [|i sched IH]; intros c H; [done|].
  apply IH. by apply pool_step_sound.
Qed.

Lemma submit_sound envs s :
  (forall i, exists art, article (envs i) = Ok art) ->
  Forall sound (submit envs s).1.
Proof.
  intros H. apply Forall_lookup. intros i w [Hpc Henv]%submit_lookup.
  split; [unfold failed; by rewrite Hpc | rewrite Henv; apply H].
Qed.

(** C7: [download_entries] for a feed with [N] raw entries.  Whatever the
    interleaving of the workers: once every unit of work is over and none
    has failed, [N] entries have been appended to the feed's entries and
    [N] entries have been pushed onto the queue; every unit of work is over
    as soon as each worker has had its ten turns; and no unit of work fails
    when every article is extracted. *)
Theorem download_entries_complete self envs s sched :
  let N := length (feed (self_feed s)) in
  let c := download_entries self envs sched s in
  (all_over c = true ->
   Forall (fun w => failed w = false) c.1 ->
   exists new out,
     entries (self_feed c.2) = entries (self_feed s) ++ new
     /\ length new = N
     /\ queue c.2 = queue s ++ out
     /\ length out = N)
  /\ ((forall i, (i < N)%nat ->
                 (remaining AtGet <= count_occ Nat.eq_dec sched i)%nat) ->
      all_over c = true)
  /\ ((forall i, exists art, article (envs i) = Ok art) ->
      Forall (fun w => failed w = false) c.1).
Proof.
  intros N c. unfold download_entries in c.
  assert (Hpool : length c.1 = N).
  { subst c. by rewrite run_length, submit_length. }
  split_and!.
  - intros Hover Hok.
    destruct (run_counted self _ _ sched _ (submit_counted envs s))
      as (new & out & He & Hq & Hn & Ho).
    destruct (finished_counts _ Hover Hok) as [Ha Hp].
    exists new, out. fold c in He, Hq, Hn, Ho.
    split_and!; [done|lia|done|lia].
  - intros Hfair. unfold all_over. apply forallb_forall. intros w' Hin.
    apply list_elem_of_In, list_elem_of_lookup in Hin as [i Hi].
    assert (Hlt : (i < N)%nat).
    { rewrite <- Hpool. by eapply lookup_lt_Some. }
    destruct (lookup_lt_is_Some_2 (submit envs s).1 i) as [w Hw].
    { by rewrite submit_length. }
    destruct (submit_lookup _ _ _ _ Hw) as [Hpc _].
    destruct (run_remaining self sched _ _ _ Hw) as (w1 & Hw1 & Hle).
    fold c in Hw1. rewrite Hi in Hw1. injection Hw1 as <-.
    apply remaining_over. rewrite Hpc in Hle.
    specialize (Hfair i Hlt). lia.
  - intros Hart.
    eapply Forall_impl; [apply run_sound, submit_sound, Hart|].
    by intros w [H _].
Qed.

Lemma same_content_refl e : Entry.same_content e e.
Proof. by repeat split. Qed.

Lemma same_content_trans e1 e2 e3 :
  Entry.same_content e1 e2 -> Entry.same_content e2 e3 ->
  Entry.same_content e1 e3.
Proof.
  unfold Entry.same_content. intros (?&?&?&?&?&?&?) (?&?&?&?&?&?&?).
  split_and!; congruence.
Qed.

(** In every interleaving an entry object keeps all its fields but the
    parent, and stays in the heap. *)
Lemma step_keeps_content self w s r e :
  heap s !! r = Some e ->
  exists e', heap (step self w s).2 !! r = Some e' /\ Entry.same_content e e'.
Proof.
  intros Hr.
  destruct w as [d a []]; unfold step; cbn [at_pc entry_data env];
    repeat case_match; cbn [snd heap];
    try (exists e; split; [done|apply same_content_refl]).
  - destruct (decide (cached = r)) as [->|Hne].
    + exists (Entry.set_parent self e).
      rewrite list_lookup_alter_eq, Hr. split; [done|].
      apply FeedFacts.same_content_set_parent.
    + exists e. rewrite list_lookup_alter_ne by done.
      split; [done|apply same_content_refl].
  - exists e. split; [|apply same_content_refl].
    rewrite lookup_app_l; [done|]. by eapply lookup_lt_Some.
Qed.

Lemma run_keeps_content self sched c r e :
  heap c.2 !! r = Some e ->
  exists e', heap (run self sched c).2 !! r = Some e'
             /\ Entry.same_content e e'.
Proof.
  revert c e. induction sched as [|i sched IH]; intros c e Hr.
  - exists e. split; [done|apply same_content_refl].
  - cbn [run foldl]. fold (run self sched (pool_step self c i)).
    assert (Hstep : exists e1, heap (pool_step self c i).2 !! r = Some e1
                               /\ Entry.same_content e e1).
    { unfold pool_step. destruct (c.1 !! i) as [w|].
      - destruct (step_keeps_content self w c.2 r e Hr) as (e1 & H1 & H2).
        destruct (step self w c.2) as [w' s']. eauto.
      - exists e. split; [done|apply same_content_refl]. }
    destruct Hstep as (e1 & H1 & Hc1).
    destruct (IH _ _ H1) as (e' & H' & Hc').
    exists e'. split; [done|]. by eapply same_content_trans.
Qed.

Lemma download_entries_complete_witness :
  let c := download_entries 3%nat (fun _ => Sample.answer) Sample.turns
                            Sample.pool_state in
  all_over c = true
  /\ exists new out,
       entries (self_feed c.2) = [] ++ new /\ length new = 2%nat
       /\ queue c.2 = [] ++ out /\ length out = 2%nat.
Proof.
  intros c.
  destruct (download_entries_complete
              3%nat (fun _ => Sample.answer) Sample.pool_state
              Sample.turns) as (Hcount & Hdone & Hsound).
  assert (Hd : all_over c = true).
  { apply Hdone. intros [|[|i]] Hi; [vm_compute; lia|vm_compute; lia|].
    simpl in Hi. lia. }
  split; [exact Hd|].
  apply (Hcount Hd). apply Hsound.
  intros _. by eexists.
Defined.

End PoolFacts.

(** ** The feed list *)

Module FeedListFacts.
Import FeedList.

Implicit Types (w : Feed.world) (s : state) (e : exn) (file : feed_file).

Lemma except_log_all msg (r : result unit * state) :
  (except_log (fun _ => true) msg r).1 = Ok ().
Proof.
  unfold except_log. destruct r as [[[]|e] s]; reflexivity.
Qed.

(** [load] returns whatever the file and the collaborators do. *)
Lemma load_returns w path file s : (load w path file s).1 = Ok ().
Proof. apply except_log_all. Qed.

(** The loop adds the feeds of the records before the first one whose
    construction raises, and none after it. *)
Lemma load_records_stops w before data after e s :
  Forall (fun d => exists feed, construct w d = Ok feed) before ->
  construct w data = Raise e ->
  exists added,
    load_records w (before ++ data :: after) s = (Raise e, added)
    /\ length (feeds added) = (length (feeds s) + length before)%nat.
Proof.
  intros Hbefore Hdata. revert s.
  induction Hbefore as [|d before [feed Hd] _ IH]; intros s.
  - exists s. simpl. rewrite Hdata. split; [done|lia].
  - simpl. rewrite Hd.
    destruct (IH (logging (LogInfo ("Added feed from " +:+ Feed.url feed))
                          (append feed s))) as (added & -> & Hlen).
    exists added. split; [done|].
    rewrite Hlen. simpl. rewrite length_app. simpl. lia.
Qed.

(** C1, at a file of two records of which the first does not parse: the
    loop is left at the first record, the failure is logged, and the feed
    list stays empty although the second record parses; with the records
    in the other order the list has the one feed. *)
Theorem load_stops_at_first_parse_error :
  feeds (load Sample.world "feeds.json" Sample.bad_then_good
              Sample.empty_list).2 = []
  /\ log (load Sample.world "feeds.json" Sample.bad_then_good
               Sample.empty_list).2
     = [LogError ("Error while processing feed: Failed to parse feed from "
                  +:+ Sample.bad_url +:+ ": not a feed")]
  /\ Feed.url <$> feeds (load Sample.world "feeds.json" Sample.good_then_bad
                              Sample.empty_list).2
     = [Sample.good_url]
  /\ (exists feed,
        construct Sample.world (Sample.record Sample.good_url) = Ok feed).
Proof. split_and!; [reflexivity..|by eexists]. Qed.

(** C10: when the feed-list file cannot be opened, or opens and does not
    hold JSON, [load] returns normally, leaves the feeds as they were and
    adds one error record to the log. *)
Theorem load_unreadable_file w path file s e :
  file = Unopenable e \/ file = Undecodable e ->
  (load w path file s).1 = Ok ()
  /\ feeds (load w path file s).2 = feeds s
  /\ exists msg, log (load w path file s).2 = log s ++ [LogError msg].
Proof.
  intros [-> | ->]; (split; [apply load_returns|]).
  - simpl. eauto.
  - unfold load, load_inner, except_log. cbn [fst snd].
    destruct (bool_decide (exn_cls e = FeedParseError)); simpl; eauto.
Qed.

Lemma load_unreadable_file_witness :
  let missing := Exn OSError "No such file or directory" in
  let garbled := Exn ValueError "Expecting value" in
  let s := State [] [LogInfo "Starting application..."] in
  feeds (load Sample.world "feeds.json" (Unopenable missing) s).2 = []
  /\ feeds (load Sample.world "feeds.json" (Undecodable garbled) s).2 = [].
Proof.
  intros missing garbled s. split.
  - apply (load_unreadable_file Sample.world "feeds.json"
                                (Unopenable missing) s missing).
    by left.
  - apply (load_unreadable_file Sample.world "feeds.json"
                                (Undecodable garbled) s garbled).
    by right.
Defined.

(** C8: a [save] that writes leaves in the file the list of the
    [{url, display, enabled}] objects of the feeds, in the order of the
    list; a [save] that fails with an [OSError] logs an error and raises
    that same exception.  The other persistence operations return
    normally whatever the file system does. *)
Theorem save_writes_or_raises path (self : list Feed.t) file :
  save WriteOk path self file
  = (Ok (), Holds (JArr (saved_state <$> self)), [])
  /\ (forall i,
        (saved_state <$> self) !! i
        = (fun feed => JObj [ ("url", JStr (Feed.url feed));
                              ("display", Feed.display feed);
                              ("enabled", Feed.enabled feed) ])
            <$> self !! i)
  /\ (forall io e,
        failure_of io = Some e ->
        exn_cls e = OSError ->
        (save io path self file).1.1 = Raise e
        /\ (save io path self file).2
           = [LogError ("Error while saving feed list to " +:+ path +:+ ": "
                        +:+ exn_msg e)])
  /\ (forall w s, (load w path file s).1 = Ok ())
  /\ (forall (Entry : Type) cache_path io (c : EntryCache.t Entry) f,
        (EntryCache.save cache_path io c f).1.1 = Ok ())
  /\ (forall (Entry : Type) (f : EntryCache.cache_file Entry),
        exists c, (EntryCache.init f).1 = Ok c).
Proof.
  split_and!.
  - reflexivity.
  - intros i. apply list_lookup_fmap.
  - intros io e Hio Hcls. unfold save, save_body.
    destruct io; simplify_eq/=; by rewrite decide_True.
  - intros w s. apply load_returns.
  - intros Entry cache_path io c f. unfold EntryCache.save. by destruct io.
  - intros Entry f. unfold EntryCache.init.
    destruct (EntryCache.pickle_load f); eauto.
Qed.

Lemma save_writes_or_raises_witness :
  let denied := Exn OSError "Permission denied" in
  (save (OpenFails denied) "feeds.json" [] (Holds (JArr []))).1.1
  = Raise denied
  /\ (save (OpenFails denied) "feeds.json" [] (Holds (JArr []))).2
     = [LogError "Error while saving feed list to feeds.json: Permission denied"].
Proof.
  intros denied.
  apply (proj1 (proj2 (proj2
           (save_writes_or_raises "feeds.json" [] (Holds (JArr [])))))
           (OpenFails denied) denied); reflexivity.
Defined.

End FeedListFacts.

(** * Further properties *)

Set Warnings "-clear-no-such-hyp".

(** ** The entry cache over a session *)

Module SessionFacts.
Import EntryCache Session.
Section Generic.

Context {Entry : Type} (cache_path : string).
Implicit Types (c : EntryCache.t Entry) (l : string) (e : Entry)
  (o : op Entry) (ops : list (op Entry)) (f : cache_file Entry).

Lemma mark_mark c l e : mark l e (mark l e c) = mark l e c.
Proof. unfold mark. simpl. by rewrite insert_insert_eq. Qed.

(** X1: reading a link twice is the same as reading it once, and two
    reads can be swapped: both orders return the same entries and leave the
    same cache. *)
Theorem get_idempotent_commutes c l1 l2 :
  get l1 (get l1 c).2 = get l1 c
  /\ (get l2 (get l1 c).2).1 = (get l2 c).1
  /\ (get l1 (get l2 c).2).1 = (get l1 c).1
  /\ (get l2 (get l1 c).2).2 = (get l1 (get l2 c).2).2.
Proof.
  destruct (entries c !! l1) as [e1|] eqn:H1;
    destruct (entries c !! l2) as [e2|] eqn:H2;
    rewrite ?(EntryCacheFacts.get_hit _ _ _ H1),
            ?(EntryCacheFacts.get_miss _ _ H1),
            ?(EntryCacheFacts.get_hit _ _ _ H2),
            ?(EntryCacheFacts.get_miss _ _ H2); cbn [fst snd];
    rewrite ?(EntryCacheFacts.get_hit (mark l1 e1 c) l1 e1 H1),
            ?(EntryCacheFacts.get_hit (mark l1 e1 c) l2 e2 H2),
            ?(EntryCacheFacts.get_hit (mark l2 e2 c) l1 e1 H1),
            ?(EntryCacheFacts.get_miss (mark l1 e1 c) l2 H2),
            ?(EntryCacheFacts.get_miss (mark l2 e2 c) l1 H1),
            ?(EntryCacheFacts.get_hit _ _ _ H1),
            ?(EntryCacheFacts.get_miss _ _ H1),
            ?(EntryCacheFacts.get_hit _ _ _ H2),
            ?(EntryCacheFacts.get_miss _ _ H2); cbn [fst snd];
    rewrite ?mark_mark; split_and!; try done.
  unfold mark. simpl. f_equal.
  destruct (decide (l1 = l2)) as [->|Hne].
  - by simplify_eq.
  - by apply insert_insert_ne.
Qed.

Lemma apply_keeps_links c o l :
  (is_Some (entries c !! l) -> is_Some (entries (apply c o) !! l))
  /\ (is_Some (used c !! l) -> is_Some (used (apply c o) !! l)).
Proof.
  destruct o as [l'|l' e']; simpl.
  - rewrite EntryCacheFacts.get_entries. split; [done|].
    destruct (entries c !! l') as [e|] eqn:H.
    + rewrite (EntryCacheFacts.get_hit _ _ _ H). simpl.
      rewrite lookup_insert. case_decide; eauto.
    + by rewrite (EntryCacheFacts.get_miss _ _ H).
  - split; [|done]. rewrite lookup_insert. case_decide; eauto.
Qed.

(** X2: the cache never evicts.  Whatever operations follow, a link bound
    in the store stays bound in the store and a link bound in [used] stays
    bound in [used]; and the entry that the store binds to a link changes
    only by a [put] on that link. *)
Theorem cache_never_evicts c ops l :
  (is_Some (entries c !! l) -> is_Some (entries (after c ops) !! l))
  /\ (is_Some (used c !! l) -> is_Some (used (after c ops) !! l))
  /\ ((forall e, Put l e ∉ ops) ->
      entries (after c ops) !! l = entries c !! l).
Proof.
  revert c. induction ops as [|o ops IH]; intros c; [done|].
  cbn [after foldl]. fold (after (apply c o) ops).
  destruct (IH (apply c o)) as (IHe & IHu & IHs).
  destruct (apply_keeps_links c o l) as [He Hu].
  split_and!; [auto|auto|].
  intros Hput. rewrite IHs.
  - destruct o as [l'|l' e']; simpl.
    + by rewrite EntryCacheFacts.get_entries.
    + rewrite lookup_insert_ne; [done|].
      intros ->. apply (Hput e'). by left.
  - intros e Hin. apply (Hput e). by right.
Qed.

Lemma after_used_read c ops :
  dom (used (after c ops)) ⊆ dom (used c) ∪ links_read ops.
Proof.
  revert c. induction ops as [|o ops IH]; intros c.
  - simpl. set_solver.
  - cbn [after foldl]. fold (after (apply c o) ops).
    etrans; [apply IH|].
    destruct o as [l|l e]; simpl.
    + destruct (entries c !! l) as [e|] eqn:H.
      * rewrite (EntryCacheFacts.get_hit _ _ _ H). simpl.
        rewrite dom_insert. set_solver.
      * rewrite (EntryCacheFacts.get_miss _ _ H). set_solver.
    + set_solver.
Qed.

(** X3: what a session persists.  A [save] that writes leaves in the file
    the [used] map, which binds only links that the session asked [get]
    for: whatever the old file held and whatever was [put], a session
    without a [get] writes an empty dictionary, and the next construction
    starts from an empty store. *)
Theorem session_persists_only_read f ops old :
  let c := after (fresh f) ops in
  let saved := (save cache_path WriteOk c old).1.2 in
  saved = Pickled (used c)
  /\ dom (used c) ⊆ links_read ops
  /\ (links_read ops = ∅ ->
      saved = Pickled ∅ /\ entries (fresh saved) = ∅).
Proof.
  intros c saved.
  assert (Hdom : dom (used c) ⊆ links_read ops).
  { subst c. etrans; [apply after_used_read|].
    rewrite EntryCacheFacts.fresh_used. set_solver. }
  split_and!; [done|done|].
  intros Hnone. rewrite Hnone in Hdom.
  assert (used c = ∅) as Hempty.
  { apply dom_empty_iff_L. set_solver. }
  subst saved. simpl. by rewrite Hempty.
Qed.

End Generic.

Lemma cache_never_evicts_witness :
  let c : EntryCache.t nat := fresh (Pickled {["b" := 7%nat]}) in
  let ops := [Put "a" 1%nat; Get "c"; Get "a"] in
  is_Some (entries (after c ops) !! "b")
  /\ entries (after c ops) !! "b" = entries c !! "b".
Proof.
  intros c ops.
  destruct (cache_never_evicts c ops "b") as (He & _ & Hs).
  split.
  - apply He. by eexists.
  - apply Hs. intros e Hin. vm_compute in Hin.
    repeat (apply elem_of_cons in Hin as [Hin|Hin]; [discriminate|]).
    by apply elem_of_nil in Hin.
Defined.

Lemma session_persists_only_read_witness :
  let f : cache_file nat := Pickled {["b" := 7%nat]} in
  let ops := [Put "a" 1%nat; Put "b" 2%nat] in
  (save "entries.pickle" WriteOk (after (fresh f) ops) f).1.2 = Pickled ∅.
Proof.
  intros f ops.
  destruct (session_persists_only_read "entries.pickle" f ops f)
    as (_ & _ & H).
  apply H. reflexivity.
Defined.

End SessionFacts.

(** ** The relative date: ranges and timestamps ahead of the clock *)

Module DateFacts.
Import Time Entry.

Lemma sub_seconds_range now date : 0 <= seconds (sub now date) < 86400.
Proof.
  unfold sub.
  match goal with |- context [timedelta_new ?d ?s ?us] =>
    destruct (EntryFacts.timedelta_new_spec d s us) as (_ & H & _) end.
  exact H.
Qed.

(** X4: the number in a relative date is never negative and stays below
    the next unit: minutes run from 0 to 59, hours from 1 to 23, days from
    1 to 29, months from 1 upwards. *)
Theorem construct_date_ranges now date :
  exists value unit,
    construct_date now date = describe value unit
    /\ ((unit = "month" /\ 1 <= value)
        \/ (unit = "day" /\ 1 <= value < 30)
        \/ (unit = "hour" /\ 1 <= value < 24)
        \/ (unit = "minute" /\ 0 <= value < 60)).
Proof.
  rewrite EntryFacts.construct_date_relative.
  pose proof (sub_seconds_range now date) as Hs.
  unfold relative_date, largest_applicable, candidates.
  cbn [List.find fst].
  set (d := days (sub now date)) in *.
  set (s := seconds (sub now date)) in *.
  pose proof (Z.div_mod d 30 ltac:(lia)) as Hd30.
  pose proof (Z.mod_pos_bound d 30 ltac:(lia)) as Hm30.
  pose proof (Z.div_mod s 3600 ltac:(lia)) as Hs3600.
  pose proof (Z.mod_pos_bound s 3600 ltac:(lia)) as Hm3600.
  pose proof (Z.div_mod s 60 ltac:(lia)) as Hs60.
  pose proof (Z.mod_pos_bound s 60 ltac:(lia)) as Hm60.
  destruct (Z.ltb_spec 0 (d / 30)) as [Hmonth|Hmonth].
  { exists (d / 30), "month". split; [done|]. left. split; [done|lia]. }
  destruct (Z.ltb_spec 0 d) as [Hday|Hday].
  { exists d, "day". split; [done|]. right; left. split; [done|lia]. }
  destruct (Z.ltb_spec 0 (s / 3600)) as [Hhour|Hhour].
  { exists (s / 3600), "hour". split; [done|].
    right; right; left. split; [done|lia]. }
  exists (s / 60), "minute". split; [done|].
  right; right; right. split; [done|lia].
Qed.

(** X5: a timestamp ahead of the clock.  The difference is a negative
    [timedelta], whose days are negative and whose seconds count up from
    the previous midnight of the difference: the date only shows hours or
    minutes, those of the seconds that have passed modulo one day. *)
Theorem construct_date_ahead now date :
  elapsed_seconds now date < 0 ->
  construct_date now date
  = relative_date_of_seconds (elapsed_seconds now date mod 86400).
Proof.
  intros Hneg. rewrite EntryFacts.construct_date_relative.
  destruct (EntryFacts.sub_fields now date) as [Hd Hs].
  set (es := elapsed_seconds now date) in *.
  unfold relative_date, largest_applicable, candidates,
    relative_date_of_seconds.
  cbn [List.find fst]. rewrite Hd, Hs.
  pose proof (Z.div_mod es 86400 ltac:(lia)) as Hdm.
  pose proof (Z.mod_pos_bound es 86400 ltac:(lia)) as Hmb.
  set (m := es mod 86400) in *.
  pose proof (Z.div_mod (es / 86400) 30 ltac:(lia)) as Hdm30.
  pose proof (Z.mod_pos_bound (es / 86400) 30 ltac:(lia)) as Hmb30.
  pose proof (Z.div_mod m 3600 ltac:(lia)) as Hdmh.
  pose proof (Z.mod_pos_bound m 3600 ltac:(lia)) as Hmbh.
  destruct (Z.ltb_spec 0 (es / 86400 / 30)); [lia|].
  destruct (Z.ltb_spec 0 (es / 86400)); [lia|].
  destruct (Z.leb_spec (30 * 86400) m); [lia|].
  destruct (Z.leb_spec 86400 m); [lia|].
  destruct (Z.ltb_spec 0 (m / 3600));
    destruct (Z.leb_spec 3600 m); try lia; done.
Qed.

Lemma construct_date_ahead_witness :
  construct_date (DateTime 738000 12 0 0 0) (DateTime 738000 12 0 30 0)
  = "23 hours ago".
Proof.
  rewrite (construct_date_ahead (DateTime 738000 12 0 0 0)
                                (DateTime 738000 12 0 30 0)).
  - reflexivity.
  - vm_compute. reflexivity.
Defined.

End DateFacts.

(** ** The constructor of a feed *)

Module FeedInitFacts.
Import Feed.

Implicit Types (w : world) (url : string) (display enabled : json).

(** The display name that the constructor settles on. *)
Lemma init_cases w url display enabled :
  init w url display enabled
  = match feedparser_parse w url with
    | Raise cause => Raise (Exn FeedParseError
        ("Failed to parse feed from " +:+ url +:+ ": " +:+ exn_msg cause))
    | Ok [] => Raise (Exn FeedParseError
        ("Failed to parse feed from " +:+ url
         +:+ ": list index out of range"))
    | Ok (first :: rest) =>
        match urlparse_hostname w (Feedparser.link first) with
        | Raise cause => Raise (Exn FeedParseError
            ("Failed to parse feed from " +:+ url +:+ ": "
             +:+ exn_msg cause))
        | Ok host =>
            let img :=
              match requests_get w (favicon_url host) with
              | Ok r => if Requests.status_code r =? 200
                        then Some (Requests.content r) else None
              | Raise _ => None
              end in
            if truthy display
            then Ok (Build url enabled [] (first :: rest) display img)
            else match source_brand_upper w (Feedparser.link first) with
                 | Ok brand =>
                     Ok (Build url enabled [] (first :: rest) (JStr brand) img)
                 | Raise cause => Raise (Exn FeedParseError
                     ("Failed to parse feed from " +:+ url +:+ ": "
                      +:+ exn_msg cause))
                 end
        end
    end.
Proof.
  unfold init.
  destruct (feedparser_parse w url) as [[|first rest]|cause]; simpl; try done.
  destruct (urlparse_hostname w (Feedparser.link first)) as [host|cause];
    simpl; [|done].
  destruct (truthy display); simpl.
  - rewrite FeedFacts.download_image_cases. done.
  - destruct (source_brand_upper w (Feedparser.link first)) as [brand|cause];
      simpl; [|done].
    rewrite FeedFacts.download_image_cases. done.
Qed.

Lemma init_raise_class w url display enabled e :
  init w url display enabled = Raise e -> exn_cls e = FeedParseError.
Proof.
  rewrite init_cases.
  destruct (feedparser_parse w url) as [[|first rest]|cause];
    [by intros [= <-]| |by intros [= <-]].
  destruct (urlparse_hostname w (Feedparser.link first)) as [host|cause];
    [|by intros [= <-]].
  cbn zeta. destruct (truthy display); [done|].
  destruct (source_brand_upper w (Feedparser.link first));
    [done|by intros [= <-]].
Qed.

(** X6: the constructor raises nothing but [FeedParseError], whatever its
    collaborators raise; a feed without entries cannot be constructed, and
    a failure of the icon download alone never prevents construction. *)
Theorem init_raises_parse_error_only w url display enabled :
  (forall e, init w url display enabled = Raise e ->
             exn_cls e = FeedParseError)
  /\ (feedparser_parse w url = Ok [] ->
      raises (init w url display enabled))
  /\ (forall first rest host,
        feedparser_parse w url = Ok (first :: rest) ->
        urlparse_hostname w (Feedparser.link first) = Ok host ->
        truthy display = true ->
        exists f, init w url display enabled = Ok f
                  /\ (icon f = None
                      <-> forall r, requests_get w (favicon_url host) = Ok r ->
                                    Requests.status_code r <> 200)).
Proof.
  rewrite init_cases. split_and!.
  - intros e.
    destruct (feedparser_parse w url) as [[|first rest]|cause];
      [by intros [= <-]| |by intros [= <-]].
    destruct (urlparse_hostname w (Feedparser.link first)) as [host|cause];
      [|by intros [= <-]].
    cbn zeta. destruct (truthy display); [done|].
    destruct (source_brand_upper w (Feedparser.link first));
      [done|by intros [= <-]].
  - by intros ->.
  - intros first rest host -> -> ->. eexists. split; [done|]. simpl.
    destruct (requests_get w (favicon_url host)) as [r|cause].
    + destruct (Z.eqb_spec (Requests.status_code r) 200) as [H|H].
      * split; [done|]. intros Hr. by destruct (Hr r eq_refl).
      * split; [|done]. intros _ r' [= <-]. done.
    + split; [|done]. by intros _ r' [=].
Qed.

(** X7: a constructed feed has the URL and the enabled flag it was given,
    no entries yet, and the raw entries of the parsed feed, of which there
    is at least one; its display name is the one given when that is truthy,
    and otherwise the brand of the first entry's link. *)
Theorem init_success w url display enabled f :
  init w url display enabled = Ok f ->
  Feed.url f = url
  /\ Feed.enabled f = enabled
  /\ entries f = []
  /\ feedparser_parse w url = Ok (feed f)
  /\ (exists first rest,
        feed f = first :: rest
        /\ (truthy display = true -> Feed.display f = display)
        /\ (truthy display = false ->
            exists brand,
              source_brand_upper w (Feedparser.link first) = Ok brand
              /\ Feed.display f = JStr brand)).
Proof.
  rewrite init_cases.
  destruct (feedparser_parse w url) as [[|first rest]|cause]; [done| |done].
  destruct (urlparse_hostname w (Feedparser.link first)) as [host|cause];
    [|done].
  cbn zeta. destruct (truthy display) eqn:Ht.
  - intros [= <-]. split_and!; try done.
    exists first, rest. split_and!; done.
  - destruct (source_brand_upper w (Feedparser.link first))
      as [brand|cause] eqn:Hb; [|done].
    intros [= <-]. split_and!; try done.
    exists first, rest. split_and!; try done. intros _. by exists brand.
Qed.

Lemma init_raises_parse_error_only_witness :
  raises (init Sample.world Sample.bad_url JNull (JBool true))
  /\ exists f, init Sample.world Sample.good_url (JStr "Name") (JBool true)
               = Ok f.
Proof.
  split.
  - destruct (init Sample.world Sample.bad_url JNull (JBool true))
      as [f|e] eqn:H; [discriminate H|].
    pose proof (proj1 (init_raises_parse_error_only
                         Sample.world Sample.bad_url JNull (JBool true))
                      e H) as Hcls.
    exact I.
  - destruct (proj2 (proj2 (init_raises_parse_error_only
                              Sample.world Sample.good_url (JStr "Name")
                              (JBool true)))
                    Sample.raw_a [] (Some "example.org")
                    eq_refl eq_refl eq_refl) as (f & H & _).
    by exists f.
Defined.

Lemma init_success_witness :
  exists f, init Sample.world Sample.good_url JNull (JBool true) = Ok f
            /\ Feed.display f = JStr "EXAMPLE"
            /\ Feed.url f = Sample.good_url.
Proof.
  eexists. split; [reflexivity|].
  destruct (init_success Sample.world Sample.good_url JNull (JBool true)
                         _ eq_refl)
    as (Hu & _ & _ & _ & first & rest & Hfeed & _ & Hd).
  split; [|exact Hu].
  destruct (Hd eq_refl) as (brand & Hb & ->).
  injection Hfeed as <- <-. simpl in Hb. by injection Hb as <-.
Defined.

End FeedInitFacts.

(** ** The download of one entry, run on its own *)

Module DownloadFacts.
Import Feed.

Implicit Types (d : Feedparser.entry) (a : answers) (s : state).

Lemma hit_run self d a s r :
  EntryCache.entries (cache s) !! Feedparser.link d = Some r ->
  download_entry self d a s
  = (Worker d a (Finished r),
     State (alter (Entry.set_parent self) r (heap s))
           (EntryCache.mark (Feedparser.link d) r (cache s))
           (append_entry r (self_feed s)) (queue s ++ [r])
           (log s ++ [LogInfo ("using cached entry " +:+ link_of (heap s) r)])).
Proof.
  intros Hhit. unfold download_entry. cbn [remaining run_worker].
  by rewrite (FeedFacts.step_get_hit _ _ _ _ _ Hhit).
Qed.

Lemma miss_run self d a s art :
  EntryCache.entries (cache s) !! Feedparser.link d = None ->
  article a = Ok art ->
  let e := Entry.init (now a) self art d (Newspaper.top_image art)
                      (Pool.image_of a) (icon (self_feed s)) in
  let r := length (heap s) in
  download_entry self d a s
  = (Worker d a (Finished r),
     State (heap s ++ [e])
           (EntryCache.mark (Feedparser.link d) r
              (EntryCache.put (Feedparser.link d) r (cache s)))
           (append_entry r (self_feed s)) (queue s ++ [r])
           (log s ++ [LogInfo ("cached entry " +:+ Feedparser.link d)])).
Proof.
  intros Hmiss Hart e r. unfold download_entry.
  cbn [remaining run_worker].
  unfold step at 1. cbn [at_pc entry_data env].
  rewrite (EntryCacheFacts.getitem_None _ _ Hmiss). cbn.
  rewrite decide_True by done. cbn.
  rewrite Hart. cbn. rewrite FeedFacts.download_image_cases. cbn.
  unfold EntryCache.getitem. cbn. rewrite lookup_insert_eq. cbn.
  do 3 f_equal. unfold link_of.
  rewrite lookup_app_r by done. rewrite Nat.sub_diag. cbn.
  unfold Entry.init. by destruct (Entry.timestamp d).
Qed.

(** X8: when the store does not bind the link and the article is
    extracted, [download_entry] creates exactly one entry object, built
    from the raw entry, the article, the image (if it was fetched) and the
    feed's icon, with the feed as parent; it binds the link to the new
    object in the store and in [used], so that the object will be
    persisted; and it appends the object to the feed's entries and pushes
    it onto the queue. *)
Theorem cache_miss_constructs self d a s art :
  EntryCache.entries (cache s) !! Feedparser.link d = None ->
  article a = Ok art ->
  let '(w', s') := download_entry self d a s in
  let r := length (heap s) in
  at_pc w' = Finished r
  /\ heap s' = heap s
               ++ [Entry.init (now a) self art d (Newspaper.top_image art)
                              (Pool.image_of a) (icon (self_feed s))]
  /\ (exists e, heap s' !! r = Some e
                /\ Entry.parent_feed e = self
                /\ Entry.link e = Feedparser.link d
                /\ Entry.title e = Feedparser.title d
                /\ Entry.html e = Newspaper.article_html art
                /\ Entry.top_image_url e = Newspaper.top_image art
                /\ Entry.top_image e = Pool.image_of a
                /\ Entry.icon e = icon (self_feed s))
  /\ EntryCache.entries (cache s')
     = <[Feedparser.link d := r]> (EntryCache.entries (cache s))
  /\ EntryCache.used (cache s')
     = <[Feedparser.link d := r]> (EntryCache.used (cache s))
  /\ entries (self_feed s') = entries (self_feed s) ++ [r]
  /\ queue s' = queue s ++ [r].
Proof.
  intros Hmiss Hart. rewrite (miss_run _ _ _ _ _ Hmiss Hart). cbn.
  split_and!; try done.
  eexists. split.
  - rewrite lookup_app_r by done. by rewrite Nat.sub_diag.
  - unfold Entry.init. by destruct (Entry.timestamp d).
Qed.

(** X9: when the store does not bind the link and the extraction of the
    article raises, the unit of work ends with that exception and leaves no
    trace: the heap, the cache, the feed's entries, the queue and the log
    are as before. *)
Theorem failed_extraction_leaves_no_trace self d a s e :
  EntryCache.entries (cache s) !! Feedparser.link d = None ->
  article a = Raise e ->
  download_entry self d a s = (Worker d a (Failed e), s).
Proof.
  intros Hmiss Hart. unfold download_entry. cbn [remaining run_worker].
  unfold step at 1. cbn [at_pc entry_data env].
  rewrite (EntryCacheFacts.getitem_None _ _ Hmiss). cbn.
  rewrite decide_True by done. cbn. by rewrite Hart.
Qed.

(** X10: one object per link.  After [download_entry] has fetched a link,
    a later [download_entry] for a raw entry with the same link, by any
    feed, ends with the same object and creates none; the object then has
    that feed as parent and its content is as it was fetched. *)
Theorem second_download_reuses self1 self2 d1 d2 a1 a2 s art :
  EntryCache.entries (cache s) !! Feedparser.link d1 = None ->
  article a1 = Ok art ->
  Feedparser.link d2 = Feedparser.link d1 ->
  let '(w1, s1) := download_entry self1 d1 a1 s in
  let '(w2, s2) := download_entry self2 d2 a2 s1 in
  exists r e1 e2,
    at_pc w1 = Finished r /\ at_pc w2 = Finished r
    /\ length (heap s2) = length (heap s1)
    /\ heap s1 !! r = Some e1 /\ heap s2 !! r = Some e2
    /\ Entry.parent_feed e1 = self1 /\ Entry.parent_feed e2 = self2
    /\ Entry.same_content e1 e2
    /\ entries (self_feed s2) = entries (self_feed s) ++ [r; r].
Proof.
  intros Hmiss Hart Hlink.
  rewrite (miss_run _ _ _ _ _ Hmiss Hart). cbn zeta.
  set (r := length (heap s)).
  set (e := Entry.init (now a1) self1 art d1 (Newspaper.top_image art)
                       (Pool.image_of a1) (icon (self_feed s))).
  rewrite (hit_run self2 d2 a2 _ r).
  2: { cbn. rewrite Hlink. apply lookup_insert_eq. }
  assert (Hr : (heap s ++ [e]) !! r = Some e).
  { rewrite lookup_app_r by done. subst r. by rewrite Nat.sub_diag. }
  exists r, e, (Entry.set_parent self2 e). cbn.
  split_and!; try done.
  - apply length_alter.
  - by rewrite list_lookup_alter_eq, Hr.
  - unfold e, Entry.init. by destruct (Entry.timestamp d1).
  - by rewrite <- app_assoc.
Qed.

Lemma cache_miss_constructs_witness :
  let '(w', s') := download_entry 3%nat Sample.raw_b Sample.answer
                                  SampleMore.empty_state in
  at_pc w' = Finished 0%nat
  /\ length (heap s') = 1%nat
  /\ queue s' = [0%nat].
Proof.
  pose proof (cache_miss_constructs 3%nat Sample.raw_b Sample.answer
                                    SampleMore.empty_state Sample.article
                                    eq_refl eq_refl) as H.
  destruct (download_entry 3%nat Sample.raw_b Sample.answer SampleMore.empty_state)
    as [w' s'].
  destruct H as (Hpc & Hheap & _ & _ & _ & _ & Hq).
  split_and!; [exact Hpc | by rewrite Hheap | exact Hq].
Defined.

Lemma failed_extraction_leaves_no_trace_witness :
  download_entry 3%nat Sample.raw_b SampleMore.failing_answer SampleMore.empty_state
  = (Worker Sample.raw_b SampleMore.failing_answer
            (Failed (Exn OtherException "404")), SampleMore.empty_state).
Proof.
  apply failed_extraction_leaves_no_trace; reflexivity.
Defined.

Lemma second_download_reuses_witness :
  let '(w1, s1) := download_entry 3%nat Sample.raw_b Sample.answer
                                  SampleMore.empty_state in
  let '(w2, s2) := download_entry 4%nat Sample.raw_b Sample.answer s1 in
  exists r e1 e2,
    at_pc w1 = Finished r /\ at_pc w2 = Finished r
    /\ length (heap s2) = length (heap s1)
    /\ heap s1 !! r = Some e1 /\ heap s2 !! r = Some e2
    /\ Entry.parent_feed e1 = 3%nat /\ Entry.parent_feed e2 = 4%nat
    /\ Entry.same_content e1 e2
    /\ entries (self_feed s2) = entries (self_feed SampleMore.empty_state) ++ [r; r].
Proof.
  exact (second_download_reuses 3%nat 4%nat Sample.raw_b Sample.raw_b
           Sample.answer Sample.answer SampleMore.empty_state Sample.article
           eq_refl eq_refl eq_refl).
Defined.

End DownloadFacts.

(** ** The pool: failures, and what is delivered *)

Module PoolMoreFacts.
Import Feed Pool.

Implicit Types (w : worker) (s : state) (c : config) (p : list worker).

Lemma step_held self w s :
  exists new out,
    entries (self_feed (step self w s).2) = entries (self_feed s) ++ new
    /\ queue (step self w s).2 = queue s ++ out
    /\ new ++ held w ≡ₚ out ++ held (step self w s).1.
Proof.
  destruct w as [d a []]; unfold step, held; cbn [at_pc entry_data env];
    repeat case_match; simplify_eq/=;
    try (by exists [], []; rewrite !app_nil_r).
  - by eexists [_], []; rewrite app_nil_r.
  - by eexists [], [_]; rewrite app_nil_r.
Qed.

Lemma mjoin_insert {A B} (f : A -> list B) (l : list A) i x y :
  l !! i = Some x ->
  mjoin (f <$> <[i := y]> l) ++ f x ≡ₚ mjoin (f <$> l) ++ f y.
Proof.
  revert i. induction l as [|z l IH]; intros [|i] H; simplify_eq/=.
  - rewrite (Permutation_app_comm (f y ++ _) (f x)).
    rewrite <- !app_assoc. f_equiv. apply Permutation_app_comm.
  - rewrite <- !app_assoc. f_equiv. by apply IH.
Qed.

Lemma pool_step_balanced self be bq c i :
  balanced be bq c -> balanced be bq (pool_step self c i).
Proof.
  intros (new & out & He & Hq & Hperm). unfold pool_step.
  destruct (c.1 !! i) as [w|] eqn:Hw; [|by exists new, out].
  destruct (step_held self w c.2) as (new' & out' & He' & Hq' & Hperm').
  destruct (step self w c.2) as [w' s'] eqn:Hstep. cbn [fst snd] in *.
  exists (new ++ new'), (out ++ out'). cbn [fst snd].
  rewrite He', Hq', He, Hq, !app_assoc. split_and!; [done|done|].
  pose proof (mjoin_insert held _ _ _ w' Hw) as Hins.
  apply (Permutation_app_inv_r (held w)).
  rewrite <- !app_assoc, Hins, Hperm', Hperm.
  rewrite <- !app_assoc. f_equiv.
  rewrite !app_assoc. f_equiv. apply Permutation_app_comm.
Qed.

Lemma run_balanced self be bq sched c :
  balanced be bq c -> balanced be bq (run self sched c).
Proof.
  revert c. induction sched as [|i sched IH]; intros c H; [done|].
  apply IH. by apply pool_step_balanced.
Qed.

Lemma submit_balanced envs s :
  balanced (entries (self_feed s)) (queue s) (submit envs s).
Proof.
  exists [], []. rewrite !app_nil_r. split_and!; try done.
  assert (Forall (fun w => held w = []) (submit envs s).1) as H.
  { apply Forall_lookup. intros i w [Hpc _]%PoolFacts.submit_lookup.
    unfold held. by rewrite Hpc. }
  induction H as [|w p Hw _ IH]; [done|].
  rewrite fmap_cons. simpl. by rewrite Hw.
Qed.

Lemma over_counts p :
  forallb over p = true ->
  (sum_list (appended <$> p) + failures p = length p)%nat
  /\ (sum_list (pushed <$> p) + failures p = length p)%nat
  /\ mjoin (held <$> p) = [].
Proof.
  unfold failures.
  induction p as [|w p IH]; [done|].
  intros [Hw Hp]%andb_prop. destruct (IH Hp) as (IHa & IHb & IHh).
  rewrite !fmap_cons. simpl. rewrite IHh.
  unfold over, failure, failed, appended, pushed, held in *.
  destruct (at_pc w); try done; simpl; split_and!; try done; lia.
Qed.

(** X11: when every unit of work of the pool is over, the entries that the
    pool has appended to the feed's entries are, up to their order, the
    entries that it has pushed onto the queue, and there is one of them for
    every raw entry whose unit of work has not failed: a failure costs
    exactly its own entry. *)
Theorem pool_accounts_for_failures self envs s sched :
  let N := length (feed (self_feed s)) in
  let c := download_entries self envs sched s in
  all_over c = true ->
  exists new out,
    entries (self_feed c.2) = entries (self_feed s) ++ new
    /\ queue c.2 = queue s ++ out
    /\ new ≡ₚ out
    /\ (length new + failures c.1 = N)%nat.
Proof.
  intros N c Hover. unfold download_entries in c.
  destruct (run_balanced self _ _ sched _ (submit_balanced envs s))
    as (new & out & He & Hq & Hperm).
  destruct (PoolFacts.run_counted self _ _ sched _
              (PoolFacts.submit_counted envs s))
    as (new' & out' & He' & Hq' & Hn & _).
  fold c in He, Hq, Hperm, He', Hq', Hn.
  rewrite He in He'. apply app_inv_head in He'. subst new'.
  destruct (over_counts _ Hover) as (Ha & _ & Hh).
  exists new, out. split_and!; [done|done| |].
  - by rewrite Hperm, Hh, app_nil_r.
  - assert (length c.1 = N) as <-.
    { subst c. by rewrite PoolFacts.run_length, PoolFacts.submit_length. }
    lia.
Qed.

Lemma pool_accounts_for_failures_witness :
  let envs i := match i with
                | O => Sample.answer
                | _ => SampleMore.failing_answer
                end in
  let c := download_entries 3%nat envs Sample.turns Sample.pool_state in
  exists new out,
    entries (self_feed c.2) = [] ++ new
    /\ queue c.2 = [] ++ out
    /\ new ≡ₚ out
    /\ (length new + failures c.1 = 2)%nat.
Proof.
  intros envs c.
  apply (pool_accounts_for_failures 3%nat envs Sample.pool_state
                                    Sample.turns).
  reflexivity.
Defined.

End PoolMoreFacts.

Module DeliveryFacts.
Import Pools.

Lemma extended_nil f : extended [] f = f.
Proof. destruct f. unfold extended. cbn. by rewrite app_nil_r. Qed.

Lemma extended_app new new' f :
  extended new' (extended new f) = extended (new ++ new') f.
Proof. unfold extended. cbn. by rewrite app_assoc. Qed.

Lemma adopted_live owners heap r :
  adopted owners heap r -> (r < length heap)%nat.
Proof. intros (e & H & _). by eapply lookup_lt_Some. Qed.

Lemma adopted_alter owners self heap r r' :
  self ∈ owners ->
  adopted owners heap r ->
  adopted owners (alter (Entry.set_parent self) r' heap) r.
Proof.
  intros Hself (e & H & Hp). destruct (decide (r' = r)) as [->|Hne].
  - exists (Entry.set_parent self e).
    by rewrite list_lookup_alter_eq, H.
  - exists e. by rewrite list_lookup_alter_ne.
Qed.

Lemma adopted_app owners heap r e :
  adopted owners heap r -> adopted owners (heap ++ [e]) r.
Proof.
  intros (e' & H & Hp). exists e'. split; [|done].
  rewrite lookup_app_l; [done|]. by eapply lookup_lt_Some.
Qed.

Lemma init_parent now self art d url img ic :
  Entry.parent_feed (Entry.init now self art d url img ic) = self.
Proof. unfold Entry.init. by destruct (Entry.timestamp d). Qed.

(** The heap after a statement of a worker of one of [owners] holds every
    object it held, with a parent among [owners] where it had one. *)
Lemma step_heap owners self w s r :
  self ∈ owners ->
  ((r < length (Feed.heap s))%nat ->
   (r < length (Feed.heap (Feed.step self w s).2))%nat)
  /\ (adopted owners (Feed.heap s) r ->
      adopted owners (Feed.heap (Feed.step self w s).2) r).
Proof.
  intros Hself.
  destruct w as [d a []]; unfold Feed.step;
    cbn [Feed.at_pc Feed.entry_data Feed.env];
    repeat case_match; cbn [snd Feed.heap]; try done.
  - rewrite length_alter. split; [done|by apply adopted_alter].
  - rewrite length_app. split; [lia|apply adopted_app].
Qed.

Ltac nothing_delivered :=
  exists [], []; rewrite extended_nil, app_nil_r; by split_and!.

Lemma step_delivers owners self w s :
  self ∈ owners ->
  Pool.store_live s ->
  worker_ok owners (Feed.heap s) w ->
  Pool.store_live (Feed.step self w s).2
  /\ worker_ok owners (Feed.heap (Feed.step self w s).2)
               (Feed.step self w s).1
  /\ exists new out,
       Feed.self_feed (Feed.step self w s).2
       = extended new (Feed.self_feed s)
       /\ Feed.queue (Feed.step self w s).2 = Feed.queue s ++ out
       /\ Forall (adopted owners (Feed.heap (Feed.step self w s).2)) new
       /\ Forall (adopted owners (Feed.heap (Feed.step self w s).2)) out.
Proof.
  intros Hself Hstore Hw.
  destruct w as [d a []]; unfold Feed.step, worker_ok, Pool.store_live in *;
    cbn [Feed.at_pc Feed.entry_data Feed.env] in *.
  - (* AtGet *)
    unfold EntryCache.getitem.
    destruct (EntryCache.entries (Feed.cache s) !! Feedparser.link d)
      as [r|] eqn:Hr; cbn.
    + split_and!; [done|eauto|]. nothing_delivered.
    + rewrite decide_True by done. cbn.
      split_and!; [done|done|]. nothing_delivered.
  - (* AtGetMark *)
    cbn. split_and!; [done|done|]. nothing_delivered.
  - (* AtReparent *)
    cbn. split_and!.
    + intros l r Hl. rewrite length_alter. eauto.
    + destruct (lookup_lt_is_Some_2 _ _ Hw) as [e He].
      exists (Entry.set_parent self e).
      by rewrite list_lookup_alter_eq, He.
    + nothing_delivered.
  - (* AtDownload *)
    destruct (Feed.article a); cbn;
      (split_and!; [done|done|nothing_delivered]).
  - (* AtImage *)
    rewrite FeedFacts.download_image_cases. cbn.
    split_and!; [done|done|]. nothing_delivered.
  - (* AtConstruct *)
    cbn. split_and!.
    + intros l r Hl. rewrite length_app. specialize (Hstore l r Hl). lia.
    + eexists. split.
      * rewrite lookup_app_r by done. by rewrite Nat.sub_diag.
      * by rewrite init_parent.
    + nothing_delivered.
  - (* AtPut *)
    cbn. split_and!; [|done|nothing_delivered].
    intros l r. rewrite lookup_insert. case_decide.
    + intros [= <-]. by eapply adopted_live.
    + apply Hstore.
  - (* AtForce *)
    unfold EntryCache.getitem.
    destruct (EntryCache.entries (Feed.cache s) !! Feedparser.link d)
      as [r|] eqn:Hr; cbn.
    + split_and!; [done|done|]. nothing_delivered.
    + rewrite decide_True by done. cbn.
      split_and!; [done|done|]. nothing_delivered.
  - (* AtForceMark *)
    cbn. split_and!; [done|done|]. nothing_delivered.
  - (* AtLog *)
    cbn. split_and!; [done|done|]. nothing_delivered.
  - (* AtAppend *)
    cbn. split_and!; [done|done|]. eexists [_], []. rewrite app_nil_r.
    split_and!; [done|done| |done]. by repeat constructor.
  - (* AtPush *)
    cbn. split_and!; [done|done|]. eexists [], [_]. rewrite extended_nil.
    split_and!; [done|done|done|]. by repeat constructor.
  - cbn. split_and!; [done|done|]. nothing_delivered.
  - cbn. split_and!; [done|done|]. nothing_delivered.
Qed.

Lemma worker_ok_mono owners heap heap' w :
  (forall r, (r < length heap)%nat -> (r < length heap')%nat) ->
  (forall r, adopted owners heap r -> adopted owners heap' r) ->
  worker_ok owners heap w -> worker_ok owners heap' w.
Proof.
  intros Hlive Hown. unfold worker_ok. destruct (Feed.at_pc w); auto.
Qed.

Lemma pool_step_delivered owners g c i :
  delivered owners g c -> delivered owners g (pool_step c i).
Proof.
  intros (Hstore & Hpool & Hfeeds & out & Hq & Hout).
  unfold pool_step.
  destruct (c.1 !! i) as [u|] eqn:Hu; [|by split_and!; eauto].
  pose proof (Forall_lookup_1 _ _ _ _ Hpool Hu) as [Hown Hwok].
  unfold step.
  destruct (feeds c.2 !! owner u) as [f|] eqn:Hf.
  2: { split_and!; cbn [fst snd]; eauto.
       rewrite list_insert_id by done. done. }
  destruct (step_delivers owners (owner u) (worker u) (view c.2 f)
                          Hown Hstore Hwok)
    as (Hstore' & Hwok' & new' & out' & He' & Hq' & Hnew' & Hout').
  assert (Hmono : forall r,
             ((r < length (heap c.2))%nat ->
              (r < length (Feed.heap
                             (Feed.step (owner u) (worker u)
                                        (view c.2 f)).2))%nat)
             /\ (adopted owners (heap c.2) r ->
                 adopted owners
                         (Feed.heap (Feed.step (owner u) (worker u)
                                               (view c.2 f)).2) r))
    by (intros r; by apply (step_heap owners (owner u) (worker u)
                                      (view c.2 f) r)).
  destruct (Feed.step (owner u) (worker u) (view c.2 f)) as [w' s'] eqn:Hstep.
  cbn [fst snd] in *.
  unfold delivered. cbn [fst snd heap cache feeds queue log].
  split_and!.
  - done.
  - apply Forall_insert; [|done].
    eapply Forall_impl; [exact Hpool|].
    intros u0 [Hown0 Hok0]. split; [done|].
    revert Hok0. apply worker_ok_mono; intros r; apply Hmono.
  - intros self f0 Hf0.
    destruct (Hfeeds self f0 Hf0) as (new & Hnew & Hall & Hout0).
    destruct (decide (self = owner u)) as [->|Hne].
    + exists (new ++ new').
      rewrite list_lookup_insert_eq by (by eapply lookup_lt_Some).
      rewrite He'. cbn [view Feed.self_feed].
      assert (f = extended new f0) as -> by congruence.
      rewrite extended_app. split_and!; [done| |done].
      apply Forall_app. split; [|done].
      eapply Forall_impl; [exact Hall|]. intros r. apply Hmono.
    + exists new. rewrite list_lookup_insert_ne by done.
      split_and!; [done| |done].
      eapply Forall_impl; [exact Hall|]. intros r. apply Hmono.
  - exists (out ++ out'). rewrite Hq'. cbn [view Feed.queue].
    rewrite Hq, app_assoc. split; [done|].
    apply Forall_app. split; [|done].
    eapply Forall_impl; [exact Hout|]. intros r. apply Hmono.
Qed.

Lemma run_delivered owners g sched c :
  delivered owners g c -> delivered owners g (run sched c).
Proof.
  revert c. induction sched as [|i sched IH]; intros c H; [done|].
  apply IH. by apply pool_step_delivered.
Qed.

(** X12: what the pools deliver.  When the store binds only objects of
    the heap, then at every moment of every interleaving of the pools of
    the feeds [running], each entry that a pool has appended to the
    entries of its feed or pushed onto the queue is an object of the heap
    whose parent is one of the feeds [running]; a feed is otherwise as it
    was, a feed that is not running gets no entry, and the store still
    binds only objects of the heap. *)
Theorem pools_deliver_adopted_entries envs running sched g :
  store_live g ->
  let c := download_all envs running sched g in
  store_live c.2
  /\ (forall self f,
        feeds g !! self = Some f ->
        exists new,
          feeds c.2 !! self = Some (extended new f)
          /\ Forall (adopted running (heap c.2)) new
          /\ (self ∉ running -> new = []))
  /\ exists out,
       queue c.2 = queue g ++ out
       /\ Forall (adopted running (heap c.2)) out.
Proof.
  intros Hstore c. subst c. unfold download_all.
  match goal with |- context [run sched ?c0] =>
    assert (H0 : delivered running g c0) end.
  { split_and!; cbn [fst snd]; [done| | |].
    - apply Forall_forall. intros u Hu.
      apply list_elem_of_join in Hu as (us & Hu & Hus).
      apply list_elem_of_fmap in Hus as (self & -> & Hself).
      destruct (feeds g !! self) as [f|]; [|by apply elem_of_nil in Hu].
      apply elem_of_lookup_imap in Hu as (i & d & -> & _).
      split; [done|]. by unfold worker_ok.
    - intros self f Hf. exists []. by rewrite extended_nil.
    - exists []. by rewrite app_nil_r. }
  destruct (run_delivered running g sched _ H0) as (H1 & _ & H2 & H3).
  by split_and!.
Qed.

Lemma pools_deliver_adopted_entries_witness :
  let c := download_all (fun _ _ => Sample.answer) [0; 1]%nat
                        SampleMore.overtaken SampleMore.two_pools in
  exists out,
    queue c.2 = [] ++ out
    /\ Forall (adopted [0; 1]%nat (heap c.2)) out.
Proof.
  intros c.
  refine (proj2 (proj2 (pools_deliver_adopted_entries
                          (fun _ _ => Sample.answer) [0; 1]%nat
                          SampleMore.overtaken SampleMore.two_pools _))).
  intros l r Hl. simpl in Hl.
  apply lookup_singleton_Some in Hl as [_ <-]. simpl. lia.
Defined.

(** The parent need not be the feed that delivers.  Two feeds list an
    entry that the store binds; the worker of the first re-parents the
    object, the worker of the second re-parents it before the first has
    appended it: the first feed then holds, and has pushed, an object
    whose parent is the second. *)
Example delivered_entry_of_other_parent :
  let c := download_all (fun _ _ => Sample.answer) [0; 1]%nat
                        SampleMore.overtaken SampleMore.two_pools in
  Feed.entries <$> feeds c.2 !! 0%nat = Some [0%nat]
  /\ queue c.2 = [0%nat]
  /\ Entry.parent_feed <$> heap c.2 !! 0%nat = Some 1%nat.
Proof. by vm_compute. Qed.

End DeliveryFacts.

(** ** The feed list: loading in general, and saving then loading *)

Module FeedListMoreFacts.
Import FeedList.

Implicit Types (w : Feed.world) (s : state) (e : exn) (data : json)
  (records : list json).

Lemma load_records_all w records built s :
  Forall2 (fun d f => construct w d = Ok f) records built ->
  load_records w records s
  = (Ok (), State (feeds s ++ built) (log s ++ Loading.added_info built)).
Proof.
  intros H. revert s. induction H as [|d f records built Hd _ IH]; intros s.
  - simpl. rewrite !app_nil_r. by destruct s.
  - simpl. rewrite Hd, IH. unfold Loading.added_info, logging, append. cbn.
    by rewrite <- !app_assoc.
Qed.

Lemma load_records_prefix w before built data after e s :
  Forall2 (fun d f => construct w d = Ok f) before built ->
  construct w data = Raise e ->
  load_records w (before ++ data :: after) s
  = (Raise e, State (feeds s ++ built) (log s ++ Loading.added_info built)).
Proof.
  intros H Hdata. revert s.
  induction H as [|d f before built Hd _ IH]; intros s.
  - simpl. rewrite Hdata, !app_nil_r. by destruct s.
  - simpl. rewrite Hd, IH. unfold Loading.added_info, logging, append. cbn.
    by rewrite <- !app_assoc.
Qed.

Lemma load_all w path s records built :
  Forall2 (fun d f => construct w d = Ok f) records built ->
  load w path (Holds (JArr records)) s
  = (Ok (), State (feeds s ++ built) (log s ++ Loading.added_info built)).
Proof.
  intros H. unfold load, load_inner, iterate.
  by rewrite (load_records_all _ _ _ _ H).
Qed.

(** X13: [load] on a file that holds a list of records.  When every
    record constructs a feed, the feeds are appended in the order of the
    file and nothing is logged but their addition.  When the construction
    for some record raises, for whatever reason, the feeds of the records
    before it are kept, one error is logged, the records after it are not
    looked at, and [load] returns normally. *)
Theorem load_keeps_records_before_failure w path s :
  (forall records built,
     Forall2 (fun d f => construct w d = Ok f) records built ->
     load w path (Holds (JArr records)) s
     = (Ok (), State (feeds s ++ built) (log s ++ Loading.added_info built)))
  /\ (forall before built data after e,
        Forall2 (fun d f => construct w d = Ok f) before built ->
        construct w data = Raise e ->
        exists msg,
          load w path (Holds (JArr (before ++ data :: after))) s
          = (Ok (), State (feeds s ++ built)
                          (log s ++ Loading.added_info built ++ [LogError msg]))).
Proof.
  split.
  - intros records built. apply load_all.
  - intros before built data after e H Hdata.
    unfold load, load_inner, iterate.
    rewrite (load_records_prefix _ _ _ _ after _ _ H Hdata).
    unfold except_log. cbn [fst snd].
    destruct (bool_decide (exn_cls e = FeedParseError)); cbn;
      eexists; unfold logging; cbn; by rewrite <- app_assoc.
Qed.

Lemma construct_not_object w data :
  match data with JObj _ => False | _ => True end ->
  exists e, construct w data = Raise e.
Proof. destruct data; try done; intros _; by eexists. Qed.

(** X14: a file that holds JSON other than a list.  [load] then adds no
    feed and returns normally: the keys of an object and the characters of
    a string are no records, and a number, a truth value or [null] cannot
    be iterated. *)
Theorem load_not_a_list w path s j :
  match j with JArr _ => False | _ => True end ->
  (load w path (Holds j) s).1 = Ok ()
  /\ feeds (load w path (Holds j) s).2 = feeds s.
Proof.
  intros Hj. split; [apply FeedListFacts.load_returns|].
  unfold load, load_inner.
  destruct (iterate j) as [records|e] eqn:Hit.
  - assert (Hrec : Forall (fun d => match d with JObj _ => False
                                            | _ => True end) records).
    { destruct j; simplify_eq/=; try done.
      - apply Forall_fmap, Forall_forall. by intros.
      - apply Forall_fmap, Forall_forall. by intros. }
    destruct Hrec as [|d records Hd _].
    + done.
    + destruct (construct_not_object w d Hd) as [e He].
      simpl. rewrite He. unfold except_log. cbn [fst snd].
      by destruct (bool_decide _).
  - unfold except_log. cbn [fst snd]. by destruct (bool_decide _).
Qed.

Lemma construct_saved w f :
  construct w (saved_state f)
  = Feed.init w (rstrip (Feed.url f)) (Feed.display f) (Feed.enabled f).
Proof. reflexivity. Qed.

Lemma rstrip_idempotent u : rstrip (rstrip u) = rstrip u.
Proof.
  induction u as [|c u IH]; [done|]. simpl.
  destruct (rstrip u) as [|c' u'] eqn:Hu.
  - destruct (is_space c) eqn:Hc; [done|]. simpl. by rewrite Hc.
  - simpl. simpl in IH. by rewrite IH.
Qed.

(** X15: saving and loading again.  After a [save] that writes, a [load]
    of the file into an empty list, in a world where the URLs still parse,
    gives one feed per saved feed, in the same order, with the same
    [enabled] value, with the same display name where that is truthy, and
    with the URL stripped of trailing whitespace; the URLs of loaded feeds
    are therefore kept exactly by a further save and load. *)
Theorem save_load_round_trip w path (fs : list Feed.t) old :
  Forall (fun f => exists f',
            Feed.init w (rstrip (Feed.url f)) (Feed.display f)
                      (Feed.enabled f) = Ok f') fs ->
  let file := (save WriteOk path fs old).1.2 in
  let loaded := feeds (load w path file (State [] [])).2 in
  Forall2 (fun f f' =>
             Feed.url f' = rstrip (Feed.url f)
             /\ rstrip (Feed.url f') = Feed.url f'
             /\ Feed.enabled f' = Feed.enabled f
             /\ (truthy (Feed.display f) = true ->
                 Feed.display f' = Feed.display f))
          fs loaded.
Proof.
  intros Hfs file loaded.
  assert (Hbuilt : exists built,
             Forall2 (fun d f' => construct w d = Ok f')
                     (saved_state <$> fs) built
             /\ Forall2 (fun f f' =>
                  Feed.init w (rstrip (Feed.url f)) (Feed.display f)
                            (Feed.enabled f) = Ok f') fs built).
  { clear file loaded. induction Hfs as [|f fs [f' Hf] _ (built & H1 & H2)].
    - exists []. split; constructor.
    - exists (f' :: built). split; constructor; done. }
  destruct Hbuilt as (built & H1 & H2).
  subst loaded file. cbn [save save_body fst snd].
  rewrite (load_all w path (State [] []) _ _ H1).
  cbn. eapply Forall2_impl; [exact H2|].
  intros f f' Hinit. cbn in Hinit.
  rewrite FeedInitFacts.init_cases in Hinit.
  destruct (Feed.feedparser_parse w (rstrip (Feed.url f)))
    as [[|first rest]|cause]; [done| |done].
  destruct (Feed.urlparse_hostname w (Feedparser.link first)); [|done].
  cbn zeta in Hinit. destruct (truthy (Feed.display f)).
  - injection Hinit as <-. cbn. split_and!; try done.
    apply rstrip_idempotent.
  - destruct (Feed.source_brand_upper w (Feedparser.link first)); [|done].
    injection Hinit as <-. cbn. split_and!; try done.
    apply rstrip_idempotent.
Qed.

Lemma load_keeps_records_before_failure_witness :
  exists f msg,
    load Sample.world "feeds.json" SampleMore.good_bad_good Sample.empty_list
    = (Ok (), State [f] [LogInfo ("Added feed from " +:+ Sample.good_url);
                         LogError msg]).
Proof.
  destruct (proj2 (load_keeps_records_before_failure
                     Sample.world "feeds.json" Sample.empty_list)
                  [Sample.record Sample.good_url] [_]
                  (Sample.record Sample.bad_url)
                  [Sample.record Sample.good_url] _
                  ltac:(repeat constructor) eq_refl) as [msg H].
  eexists _, msg. exact H.
Defined.

Lemma load_not_a_list_witness :
  feeds (load Sample.world "feeds.json"
              (Holds (Sample.record Sample.good_url)) Sample.empty_list).2
  = [].
Proof.
  apply (load_not_a_list Sample.world "feeds.json" Sample.empty_list
                         (Sample.record Sample.good_url)).
  exact I.
Defined.

Lemma save_load_round_trip_witness :
  exists f',
    feeds (load Sample.world "feeds.json"
                (save WriteOk "feeds.json" [SampleMore.padded_feed]
                      (Unopenable (Exn OSError "No such file"))).1.2
                (State [] [])).2 = [f']
    /\ Feed.url f' = Sample.good_url
    /\ Feed.enabled f' = JBool false
    /\ Feed.display f' = JStr "Mine".
Proof.
  assert (H : Forall (fun f => exists f',
                        Feed.init Sample.world (rstrip (Feed.url f))
                                  (Feed.display f) (Feed.enabled f) = Ok f')
                     [SampleMore.padded_feed]).
  { repeat constructor. by eexists. }
  pose proof (save_load_round_trip
                Sample.world "feeds.json" [SampleMore.padded_feed]
                (Unopenable (Exn OSError "No such file")) H) as Hrt.
  cbv zeta in Hrt.
  apply Forall2_cons_inv_l in Hrt
    as (f' & rest & (Hu & _ & He & Hd) & Hnil & Heq).
  apply Forall2_nil_inv_l in Hnil as ->.
  exists f'. split_and!; [exact Heq|exact Hu|exact He|by apply Hd].
Defined.

End FeedListMoreFacts.

(** ** The entry list of the GUI *)

Module EntryListFacts.
Import EntryList.

Implicit Types (self : t) (feed parent : Feed.t).

Lemma insert_widget_perm index it column :
  insert_widget index it column ≡ₚ it :: column.
Proof.
  unfold insert_widget. rewrite <- Permutation_middle.
  by rewrite take_drop.
Qed.

Lemma place_perm rnd it column :
  (if (1 <? length column)%nat then insert_widget rnd it column
   else column ++ [it]) ≡ₚ it :: column.
Proof.
  destruct (1 <? length column)%nat.
  - apply insert_widget_perm.
  - by rewrite Permutation_app_comm.
Qed.

Lemma filed_add url it (m : gmap string (list item_ref)) :
  mjoin (map_to_list
           match m !! url with
           | Some l => <[url := l ++ [it]]> m
           | None => <[url := [it]]> m
           end).*2
  ≡ₚ it :: mjoin (map_to_list m).*2.
Proof.
  destruct (m !! url) as [l|] eqn:H.
  - rewrite <- (insert_delete_eq m url (l ++ [it])).
    rewrite map_to_list_insert by apply lookup_delete_eq.
    rewrite <- (map_to_list_delete m url l H).
    cbn. rewrite <- app_assoc. cbn.
    by rewrite <- Permutation_middle.
  - rewrite map_to_list_insert by done. done.
Qed.

Lemma seq_S_perm n : seq 0 (S n) ≡ₚ n :: seq 0 n.
Proof. rewrite seq_S. cbn. by rewrite Permutation_app_comm. Qed.

Lemma add_entry_tidy rnd parent e self :
  tidy self ->
  (add_entry rnd parent e self).1 = Ok ()
  /\ tidy (add_entry rnd parent e self).2.
Proof.
  intros (Hw & Hfiled & c0 & c1 & c2 & Hc & H0 & H1 & H2 & Hperm).
  unfold add_entry, COLUMN_COUNT. rewrite Hc.
  set (n := entry_count self) in *.
  set (it := length (widgets self)) in *.
  pose proof (Nat.div_mod_eq n 3). pose proof (Nat.mod_upper_bound n 3).
  pose proof (Nat.div_mod_eq (n + 1) 3).
  pose proof (Nat.mod_upper_bound (n + 1) 3).
  pose proof (Nat.div_mod_eq (n + 2) 3).
  pose proof (Nat.mod_upper_bound (n + 2) 3).
  pose proof (Nat.div_mod_eq (n + 3) 3).
  pose proof (Nat.mod_upper_bound (n + 3) 3).
  pose proof (Nat.div_mod_eq (S n) 3) as HS.
  pose proof (Nat.mod_upper_bound (S n) 3) as HSb.
  assert (Hfiled' :
    mjoin (map_to_list
             match items self !! Feed.url parent with
             | Some l => <[Feed.url parent := l ++ [it]]> (items self)
             | None => <[Feed.url parent := [it]]> (items self)
             end).*2 ≡ₚ seq 0 (S n)).
  { rewrite filed_add, seq_S_perm, Hw. by f_equiv. }
  assert (Hlen : forall c : list item_ref,
            length (if (1 <? length c)%nat then insert_widget rnd it c
                    else c ++ [it]) = S (length c)).
  { intros c. by rewrite place_perm. }
  replace (S n + 2)%nat with (n + 3)%nat by lia.
  replace (S n + 1)%nat with (n + 2)%nat by lia.
  destruct (S n mod 3)%nat as [|[|[|k]]] eqn:Hmod; [| | |lia].
  - change ([c0; c1; c2] !! 0%nat) with (Some c0). cbv iota beta.
    split; [done|]. unfold tidy, filed.
    cbn [columns entry_count widgets items fst snd]. fold n.
    split; [rewrite length_app; simpl; lia|]. split; [exact Hfiled'|].
    replace (S n + 2)%nat with (n + 3)%nat by lia.
    replace (S n + 1)%nat with (n + 2)%nat by lia.
    eexists _, c1, c2. split; [reflexivity|].
    split_and!; [rewrite Hlen; lia|lia|lia|].
    rewrite place_perm, seq_S_perm, Hw. cbn [app]. by f_equiv.
  - change ([c0; c1; c2] !! 1%nat) with (Some c1). cbv iota beta.
    split; [done|]. unfold tidy, filed.
    cbn [columns entry_count widgets items fst snd]. fold n.
    split; [rewrite length_app; simpl; lia|]. split; [exact Hfiled'|].
    replace (S n + 2)%nat with (n + 3)%nat by lia.
    replace (S n + 1)%nat with (n + 2)%nat by lia.
    eexists c0, _, c2. split; [reflexivity|].
    split_and!; [lia|rewrite Hlen; lia|lia|].
    rewrite place_perm, seq_S_perm, Hw.
    rewrite <- Hperm. cbn [app]. by rewrite <- Permutation_middle.
  - change ([c0; c1; c2] !! 2%nat) with (Some c2). cbv iota beta.
    split; [done|]. unfold tidy, filed.
    cbn [columns entry_count widgets items fst snd]. fold n.
    split; [rewrite length_app; simpl; lia|]. split; [exact Hfiled'|].
    replace (S n + 2)%nat with (n + 3)%nat by lia.
    replace (S n + 1)%nat with (n + 2)%nat by lia.
    eexists c0, c1, _. split; [reflexivity|].
    split_and!; [lia|lia|rewrite Hlen; lia|].
    rewrite place_perm, seq_S_perm, Hw.
    rewrite <- Hperm. by rewrite <- !Permutation_middle.
Qed.

Lemma add_entry_widgets rnd parent e self :
  tidy self ->
  widgets (add_entry rnd parent e self).2
  = widgets self ++ [Item e (truthy (Feed.enabled parent))].
Proof.
  intros (_ & _ & c0 & c1 & c2 & Hc & _).
  unfold add_entry, COLUMN_COUNT. rewrite Hc.
  pose proof (Nat.mod_upper_bound (S (entry_count self)) 3) as Hb.
  destruct (S (entry_count self) mod 3)%nat as [|[|[|k]]]; [done..|lia].
Qed.

Lemma reload_widgets b (l : list item_ref) (ws : list item) i :
  foldl (fun ws it => alter (set_visible b) it ws) ws l !! i
  = (if decide (i ∈ l) then set_visible b else id) <$> ws !! i.
Proof.
  revert ws. induction l as [|j l IH]; intros ws.
  - cbn. by destruct (ws !! i).
  - cbn [foldl]. rewrite IH.
    destruct (decide (j = i)) as [->|Hne].
    + rewrite list_lookup_alter_eq, (decide_True (P := i ∈ i :: l))
        by (apply elem_of_cons; by left).
      destruct (ws !! i) as [it|]; [|done]. cbn.
      by destruct (decide (i ∈ l)).
    + rewrite list_lookup_alter_ne by done.
      destruct (decide (i ∈ l)) as [Hin|Hin].
      * by rewrite decide_True by (apply elem_of_cons; by right).
      * rewrite decide_False; [done|].
        intros [?|?]%elem_of_cons; done.
Qed.

Lemma reload_length b (l : list item_ref) (ws : list item) :
  length (foldl (fun ws it => alter (set_visible b) it ws) ws l) = length ws.
Proof.
  revert ws. induction l as [|j l IH]; intros ws; [done|].
  cbn [foldl]. by rewrite IH, length_alter.
Qed.

Lemma reload_feed_tidy feed self :
  tidy self -> tidy (reload_feed feed self).2.
Proof.
  intros (Hw & Hrest). unfold reload_feed.
  destruct (items self !! Feed.url feed) as [l|]; [|done].
  split; [|done]. cbn. by rewrite reload_length.
Qed.

Lemma init_tidy : tidy init.
Proof.
  split_and!; [done|done|]. exists [], [], []. by split_and!.
Qed.

(** X16: the bookkeeping of the entry list.  In every entry list that the
    program can hold, when [n] entries have been added there are [n]
    widgets, each of them is in exactly one of the three columns and filed
    under exactly one URL, and the columns hold [n / 3], [(n + 2) / 3] and
    [(n + 1) / 3] widgets, so that they differ by one at most; and
    [add_entry] does not raise. *)
Theorem entry_list_stays_tidy self :
  reachable self ->
  tidy self
  /\ (forall rnd parent e, (add_entry rnd parent e self).1 = Ok ())
  /\ (forall c c', c ∈ columns self -> c' ∈ columns self ->
                   (length c <= length c' + 1)%nat).
Proof.
  intros Hreach.
  assert (Htidy : tidy self).
  { induction Hreach as [|rnd parent e self _ IH|feed self _ IH].
    - apply init_tidy.
    - by apply add_entry_tidy.
    - by apply reload_feed_tidy. }
  split_and!; [done| |].
  - intros rnd parent e. by apply add_entry_tidy.
  - destruct Htidy as (_ & _ & c0 & c1 & c2 & -> & H0 & H1 & H2 & _).
    set (n := entry_count self) in *.
    pose proof (Nat.div_mod_eq n 3). pose proof (Nat.mod_upper_bound n 3).
    pose proof (Nat.div_mod_eq (n + 1) 3).
    pose proof (Nat.mod_upper_bound (n + 1) 3).
    pose proof (Nat.div_mod_eq (n + 2) 3).
    pose proof (Nat.mod_upper_bound (n + 2) 3).
    intros c c' Hc Hc'.
    repeat (apply elem_of_cons in Hc as [->|Hc]);
      try (by apply elem_of_nil in Hc);
      repeat (apply elem_of_cons in Hc' as [->|Hc']);
      try (by apply elem_of_nil in Hc'); lia.
Qed.

(** X17: [reload_feed] goes by the URL.  When no widget is filed under the
    URL of the feed, which is so as long as no entry of a feed with that
    URL has been added, it raises [KeyError] and changes nothing.
    Otherwise every widget filed under the URL, whichever feed object its
    entry belongs to, is shown if the feed is enabled and hidden if it is
    not, and nothing else changes. *)
Theorem reload_feed_by_url feed self :
  (items self !! Feed.url feed = None ->
   reload_feed feed self = (Raise (Exn KeyError (Feed.url feed)), self))
  /\ (forall filed,
        items self !! Feed.url feed = Some filed ->
        let self' := (reload_feed feed self).2 in
        (reload_feed feed self).1 = Ok ()
        /\ columns self' = columns self
        /\ items self' = items self
        /\ entry_count self' = entry_count self
        /\ length (widgets self') = length (widgets self)
        /\ forall i it,
             widgets self !! i = Some it ->
             widgets self' !! i
             = Some (if decide (i ∈ filed)
                     then Item (entry it) (truthy (Feed.enabled feed))
                     else it)).
Proof.
  unfold reload_feed. split.
  - by intros ->.
  - intros filed ->. cbn. split_and!; try done.
    + apply reload_length.
    + intros i it Hit. rewrite reload_widgets, Hit. cbn.
      by destruct (decide (i ∈ filed)).
Qed.

Lemma entry_list_stays_tidy_witness :
  let self := (add_entry 0%nat SampleMore.padded_feed 5%nat
                 (add_entry 0%nat SampleMore.padded_feed 4%nat init).2).2 in
  tidy self /\ entry_count self = 2%nat.
Proof.
  intros self.
  assert (H : reachable self) by (do 2 apply reach_add; apply reach_init).
  split; [exact (proj1 (entry_list_stays_tidy self H))|reflexivity].
Defined.

Lemma reload_feed_by_url_witness :
  let self := (add_entry 0%nat SampleMore.padded_feed 4%nat init).2 in
  let feed := Controller.set_enabled (JBool true) SampleMore.padded_feed in
  (reload_feed feed init).1 = Raise (Exn KeyError (Feed.url feed))
  /\ widgets (reload_feed feed self).2 = [Item 4%nat true]
  /\ widgets self = [Item 4%nat false].
Proof.
  intros self feed. split_and!.
  - by rewrite (proj1 (reload_feed_by_url feed init) eq_refl).
  - destruct (proj2 (reload_feed_by_url feed self) [0%nat] eq_refl)
      as (_ & _ & _ & _ & Hlen & Hw).
    specialize (Hw 0%nat (Item 4%nat false) eq_refl).
    destruct (widgets (reload_feed feed self).2) as [|it [|it' ws]];
      [discriminate Hlen| |discriminate Hlen].
    cbn in Hw. by injection Hw as ->.
  - reflexivity.
Defined.

End EntryListFacts.

(** ** The controller *)

Module ControllerFacts.
Import Controller.

Implicit Types (self : t) (feed : nat) (w : Feed.world).

Lemma list_remove_elem feed (l : list nat) :
  feed ∈ l ->
  exists l1 l2,
    l = l1 ++ (feed :: l2) /\ (feed ∉ l1)
    /\ list_remove feed l = Ok (l1 ++ l2).
Proof.
  induction l as [|y l IH]; [by intros ?%elem_of_nil|].
  intros Hin. cbn. destruct (decide (y = feed)) as [->|Hne].
  - exists [], l. split_and!; [done|apply not_elem_of_nil|done].
  - apply elem_of_cons in Hin as [->|Hin]; [done|].
    destruct (IH Hin) as (l1 & l2 & -> & Hnot & ->).
    exists (y :: l1), l2. split_and!; [done| |done].
    intros [->|?]%elem_of_cons; done.
Qed.

Lemma list_remove_absent feed (l : list nat) :
  feed ∉ l ->
  list_remove feed l = Raise (Exn ValueError "list.remove(x): x not in list").
Proof.
  induction l as [|y l IH]; [done|].
  intros Hnot. cbn. rewrite decide_False.
  - rewrite IH; [done|]. intros ?. apply Hnot, elem_of_cons. by right.
  - intros ->. apply Hnot, elem_of_cons. by left.
Qed.

Lemma entries_from (objs : list Feed.t) (l : list nat) acc e :
  e ∈ foldl (fun acc r =>
               let f := objs !!! r in
               if truthy (Feed.enabled f) then acc ++ Feed.entries f
               else acc) acc l
  <-> e ∈ acc
      \/ exists r, r ∈ l /\ truthy (Feed.enabled (objs !!! r)) = true
                   /\ e ∈ Feed.entries (objs !!! r).
Proof.
  revert acc. induction l as [|y l IH]; intros acc.
  - cbn. split; [by left|]. intros [H|(r & H & _)]; [done|].
    by apply elem_of_nil in H.
  - cbn [foldl]. rewrite IH. cbn zeta.
    destruct (truthy (Feed.enabled (objs !!! y))) eqn:Hy.
    + rewrite elem_of_app. split.
      * intros [[H|H]|(r & Hr & Ht & He)].
        -- by left.
        -- right. exists y. split_and!; [apply elem_of_cons; by left|done..].
        -- right. exists r. split_and!; [apply elem_of_cons; by right|done..].
      * intros [H|(r & Hr & Ht & He)]; [by left; left|].
        apply elem_of_cons in Hr as [->|Hr]; [by left; right|].
        right. by exists r.
    + split.
      * intros [H|(r & Hr & Ht & He)]; [by left|].
        right. exists r. split_and!; [apply elem_of_cons; by right|done..].
      * intros [H|(r & Hr & Ht & He)]; [by left|].
        apply elem_of_cons in Hr as [->|Hr]; [congruence|].
        right. by exists r.
Qed.

Lemma entries_of_enabled_feeds_aux self e :
  e ∈ entries self ->
  exists feed,
    feed ∈ feed_list self
    /\ truthy (Feed.enabled (feed_objs self !!! feed)) = true
    /\ e ∈ Feed.entries (feed_objs self !!! feed).
Proof.
  unfold entries. rewrite entries_from.
  intros [H|H]; [by apply elem_of_nil in H|done].
Qed.

(** X18: the aggregate of the feed list holds exactly the entries of the
    feeds that are in the list and enabled: an entry of a feed that is
    disabled, or not in the list, is in it only if an enabled feed of the
    list has it too. *)
Theorem entries_of_enabled_feeds self e :
  e ∈ entries self
  <-> exists feed,
        feed ∈ feed_list self
        /\ truthy (Feed.enabled (feed_objs self !!! feed)) = true
        /\ e ∈ Feed.entries (feed_objs self !!! feed).
Proof.
  unfold entries. rewrite entries_from. split.
  - intros [H|H]; [by apply elem_of_nil in H|done].
  - by right.
Qed.

(** X19: [add_feed] does not raise.  When the feed cannot be constructed
    it returns [None], logs one error and changes nothing else.  When it
    can, the new feed object comes last in the feed list, with the URL
    given, enabled, and named by the brand of its first entry's link. *)
Theorem add_feed_outcome w url self :
  (forall e, Feed.init w url JNull (JBool true) = Raise e ->
     add_feed w url self
     = (Ok None,
        Build (feed_objs self) (entry_objs self) (feed_list self)
              (entry_queue self) (gui self)
              (log self ++ [LogError ("Failed to add feed at " +:+ url
                                      +:+ ": " +:+ exn_msg e)])))
  /\ (forall f, Feed.init w url JNull (JBool true) = Ok f ->
        let r := length (feed_objs self) in
        (add_feed w url self).1 = Ok (Some r)
        /\ feed_list (add_feed w url self).2 = feed_list self ++ [r]
        /\ feed_objs (add_feed w url self).2 = feed_objs self ++ [f]
        /\ feed_objs (add_feed w url self).2 !!! r = f
        /\ Feed.url f = url
        /\ Feed.enabled f = JBool true
        /\ (exists brand, Feed.display f = JStr brand)
        /\ gui (add_feed w url self).2 = gui self
        /\ log (add_feed w url self).2 = log self)
  /\ (forall e, (add_feed w url self).1 <> Raise e).
Proof.
  unfold add_feed. split_and!.
  - intros e He. rewrite He.
    by rewrite decide_True by by eapply FeedInitFacts.init_raise_class.
  - intros f Hf. rewrite Hf. cbn. split_and!; try done.
    + rewrite list_lookup_total_middle; done.
    + rewrite FeedInitFacts.init_cases in Hf.
      destruct (Feed.feedparser_parse w url) as [[|first rest]|c]; try done.
      destruct (Feed.urlparse_hostname w _); [|done]. cbn in Hf.
      destruct (Feed.source_brand_upper w _); [|done]. by injection Hf as <-.
    + rewrite FeedInitFacts.init_cases in Hf.
      destruct (Feed.feedparser_parse w url) as [[|first rest]|c]; try done.
      destruct (Feed.urlparse_hostname w _); [|done]. cbn in Hf.
      destruct (Feed.source_brand_upper w _); [|done]. by injection Hf as <-.
    + rewrite FeedInitFacts.init_cases in Hf.
      destruct (Feed.feedparser_parse w url) as [[|first rest]|c]; try done.
      destruct (Feed.urlparse_hostname w _); [|done]. cbn in Hf.
      destruct (Feed.source_brand_upper w _) as [brand|]; [|done].
      injection Hf as <-. by exists brand.
  - intros e. destruct (Feed.init w url JNull (JBool true)) as [f|e'] eqn:H;
      [done|].
    by rewrite decide_True by by eapply FeedInitFacts.init_raise_class.
Qed.

Lemma eq_bool_truthy v b : eq_bool v b = true -> truthy v = b.
Proof.
  destruct v as [|b'|n| | |]; try done; cbn.
  - by intros <-%eqb_prop.
  - destruct b; intros ->%Z.eqb_eq; reflexivity.
Qed.

Lemma gui_reload_returns f g : (Gui.reload_feed f g).1.1 = Ok ().
Proof.
  unfold Gui.reload_feed.
  destruct (EntryList.reload_feed f (Gui.entry_list g)) as [[u|e] l]; done.
Qed.

(** X20: [edit_feed] on a feed object does not raise; afterwards the feed
    has the display name given and is enabled exactly when asked, its URL
    and entries are as before, the other feed objects, the feed list and
    the queue are untouched, and the GUI is only touched when the enabled
    state had to change. *)
Theorem edit_feed_outcome feed display enabled self f :
  feed_objs self !! feed = Some f ->
  let r := edit_feed feed display enabled self in
  r.1 = Ok ()
  /\ (exists f', feed_objs r.2 !! feed = Some f'
                 /\ Feed.display f' = JStr display
                 /\ truthy (Feed.enabled f') = enabled
                 /\ Feed.url f' = Feed.url f
                 /\ Feed.entries f' = Feed.entries f)
  /\ (forall other, other <> feed ->
                    feed_objs r.2 !! other = feed_objs self !! other)
  /\ feed_list r.2 = feed_list self
  /\ entry_queue r.2 = entry_queue self
  /\ (eq_bool (Feed.enabled f) enabled = true ->
      gui r.2 = gui self /\ log r.2 = log self).
Proof.
  intros Hf r. subst r. unfold edit_feed.
  erewrite (list_lookup_total_correct (alter _ feed (feed_objs self)));
    [|by rewrite list_lookup_alter_eq, Hf].
  cbn [set_display Feed.enabled].
  destruct (eq_bool (Feed.enabled f) enabled) eqn:Heq.
  - cbn. split_and!; try done.
    + eexists. rewrite list_lookup_alter_eq, Hf. cbn.
      split_and!; try done; by apply eq_bool_truthy.
    + intros other Hne. by rewrite list_lookup_alter_ne.
  - pose proof (gui_reload_returns
      (alter (set_enabled (JBool enabled)) feed
         (alter (set_display (JStr display)) feed (feed_objs self))
       !!! feed) (gui self)) as Hret.
    destruct (Gui.reload_feed _ (gui self)) as [[ret g] l]. cbn in Hret.
    cbn. split_and!; try done.
    + eexists. rewrite !list_lookup_alter_eq, Hf. cbn.
      split_and!; try done; by destruct enabled.
    + intros other Hne. by rewrite !list_lookup_alter_ne.
Qed.

(** X21: [remove_feed] on a feed object.  The feed is disabled in any
    case.  When it is in the feed list, its first occurrence is taken out,
    the call returns normally, and no entry of the feed is in the
    aggregate of the list any more.  When it is not, the call raises
    [ValueError] after having disabled the feed, with the list, the GUI
    and the log untouched. *)
Theorem remove_feed_outcome feed self f :
  feed_objs self !! feed = Some f ->
  let r := remove_feed feed self in
  feed_objs r.2 !! feed = Some (set_enabled (JBool false) f)
  /\ (forall other, other <> feed ->
                    feed_objs r.2 !! other = feed_objs self !! other)
  /\ (feed ∈ feed_list self ->
      r.1 = Ok ()
      /\ (exists l1 l2, feed_list self = l1 ++ (feed :: l2) /\ (feed ∉ l1)
                        /\ feed_list r.2 = l1 ++ l2)
      /\ forall e, e ∈ entries r.2 ->
           exists other,
             other <> feed /\ other ∈ feed_list self
             /\ truthy (Feed.enabled (feed_objs self !!! other)) = true
             /\ e ∈ Feed.entries (feed_objs self !!! other))
  /\ (feed ∉ feed_list self ->
      (exists e, r.1 = Raise e /\ exn_cls e = ValueError)
      /\ feed_list r.2 = feed_list self
      /\ gui r.2 = gui self
      /\ log r.2 = log self).
Proof.
  intros Hf r. subst r. unfold remove_feed.
  set (objs := alter (set_enabled (JBool false)) feed (feed_objs self)).
  assert (Hobj : objs !! feed = Some (set_enabled (JBool false) f)).
  { subst objs. by rewrite list_lookup_alter_eq, Hf. }
  assert (Hother : forall other, other <> feed ->
                                 objs !! other = feed_objs self !! other).
  { intros other Hne. subst objs. by rewrite list_lookup_alter_ne. }
  assert (Hshape :
    feed_objs (match list_remove feed (feed_list self) with
               | Ok feeds =>
                   let '(r, g, l) := Gui.reload_feed (objs !!! feed)
                                                     (gui self) in
                   (r, Build objs (entry_objs self) feeds (entry_queue self)
                             g (log self ++ l))
               | Raise e =>
                   (Raise e,
                    Build objs (entry_objs self) (feed_list self)
                          (entry_queue self) (gui self) (log self))
               end).2 = objs).
  { destruct (list_remove feed (feed_list self)); [|done].
    by destruct (Gui.reload_feed _ _) as [[? ?] ?]. }
  rewrite Hshape. split_and!; [done|done| |].
  - intros Hin.
    destruct (list_remove_elem _ _ Hin) as (l1 & l2 & Hl & Hnot & ->).
    pose proof (gui_reload_returns (objs !!! feed) (gui self)) as Hret.
    destruct (Gui.reload_feed _ (gui self)) as [[ret g] l]. cbn in Hret.
    cbn [fst snd feed_list]. split_and!; [done|by exists l1, l2|].
    intros e He. apply entries_of_enabled_feeds_aux in He
      as (other & Hin' & Ht & He).
    cbn [feed_list feed_objs] in *.
    destruct (decide (other = feed)) as [->|Hne].
    + rewrite (list_lookup_total_correct _ _ _ Hobj) in Ht. done.
    + exists other.
      assert (Heq : objs !!! other = feed_objs self !!! other).
      { by rewrite !list_lookup_total_alt, Hother. }
      rewrite Heq in Ht, He. split_and!; try done.
      rewrite Hl. apply elem_of_app in Hin' as [?|?].
      * apply elem_of_app. by left.
      * apply elem_of_app. right. apply elem_of_cons. by right.
  - intros Hnot. rewrite (list_remove_absent _ _ Hnot). cbn.
    split_and!; try done. by eexists.
Qed.

Lemma same_content_relocate n e : Entry.same_content e (relocate_entry n e).
Proof. by unfold Entry.same_content. Qed.

Lemma shows_later before before' after p it :
  (length (entry_objs before) <= length (entry_objs before'))%nat ->
  (length (feed_objs before) <= length (feed_objs before'))%nat ->
  shows before' after p it -> shows before after p it.
Proof.
  intros He Hf
    (e & f & e' & f' & H1 & H2 & H3 & H4 & H5 & H6 & H7 & H8 & H9 & H10).
  exists e, f, e', f'. split_and!; try done; lia.
Qed.

(** What [get] returns for a pickle whose root and parent are in it. *)
Lemma unpickle_root p self e f :
  sent p = Some e ->
  feed_copies p !! Entry.parent_feed e = Some f ->
  let got := (unpickle p self).2 in
  let r := (unpickle p self).1 in
  r = (length (entry_objs self) + root p)%nat
  /\ entry_objs got !! r
     = Some (relocate_entry (length (feed_objs self)) e)
  /\ feed_objs got !! (length (feed_objs self) + Entry.parent_feed e)%nat
     = Some (relocate_feed (length (entry_objs self)) f)
  /\ parent_of got r = relocate_feed (length (entry_objs self)) f.
Proof.
  intros He Hf got r. subst got r. unfold unpickle, sent in *.
  cbn [fst snd feed_objs entry_objs].
  assert (H1 : (entry_objs self
                ++ (relocate_entry (length (feed_objs self))
                    <$> entry_copies p))
               !! (length (entry_objs self) + root p)%nat
               = Some (relocate_entry (length (feed_objs self)) e)).
  { rewrite lookup_app_r by lia.
    replace (length (entry_objs self) + root p - length (entry_objs self))%nat
      with (root p) by lia.
    by rewrite list_lookup_fmap, He. }
  assert (H2 : (feed_objs self
                ++ (relocate_feed (length (entry_objs self))
                    <$> feed_copies p))
               !! (length (feed_objs self) + Entry.parent_feed e)%nat
               = Some (relocate_feed (length (entry_objs self)) f)).
  { rewrite lookup_app_r by lia.
    replace (length (feed_objs self) + Entry.parent_feed e
             - length (feed_objs self))%nat
      with (Entry.parent_feed e) by lia.
    by rewrite list_lookup_fmap, Hf. }
  split_and!; [done|done|done|].
  unfold parent_of. cbn [feed_objs entry_objs].
  rewrite (list_lookup_total_correct _ _ _ H1).
  cbn [relocate_entry Entry.set_parent Entry.parent_feed].
  by apply list_lookup_total_correct.
Qed.

Lemma drain_spec rnd pending self :
  EntryList.tidy (Gui.entry_list (gui self)) ->
  Forall (fun p => is_Some (sent_parent p)) pending ->
  let r := drain rnd pending self in
  r.1 = Ok ()
  /\ entry_queue r.2 = []
  /\ feed_list r.2 = feed_list self
  /\ log r.2 = log self
  /\ (exists copies, feed_objs r.2 = feed_objs self ++ copies)
  /\ (exists copies, entry_objs r.2 = entry_objs self ++ copies)
  /\ EntryList.tidy (Gui.entry_list (gui r.2))
  /\ exists added,
       EntryList.widgets (Gui.entry_list (gui r.2))
       = EntryList.widgets (Gui.entry_list (gui self)) ++ added
       /\ Forall2 (shows self r.2) pending added.
Proof.
  revert self. induction pending as [|p rest IH]; intros self Htidy Hall.
  - cbn. split_and!; try done; by exists []; rewrite app_nil_r.
  - apply Forall_cons in Hall as [[f Hf] Hall].
    unfold sent_parent in Hf.
    destruct (sent p) as [e|] eqn:He; [|done]. cbn in Hf.
    destruct (unpickle_root p self e f He Hf) as (Hr & Hre & Hrf & Hpar).
    cbn [drain].
    destruct (unpickle p self) as [r got] eqn:Hgot. cbn [fst snd] in *.
    assert (Hgui : gui got = gui self)
      by (unfold unpickle in Hgot; by simplify_eq/=).
    assert (Hfl : feed_list got = feed_list self)
      by (unfold unpickle in Hgot; by simplify_eq/=).
    assert (Hlog : log got = log self)
      by (unfold unpickle in Hgot; by simplify_eq/=).
    assert (Hfo : feed_objs got
                  = feed_objs self
                    ++ (relocate_feed (length (entry_objs self))
                        <$> feed_copies p))
      by (unfold unpickle in Hgot; by simplify_eq/=).
    assert (Heo : entry_objs got
                  = entry_objs self
                    ++ (relocate_entry (length (feed_objs self))
                        <$> entry_copies p))
      by (unfold unpickle in Hgot; by simplify_eq/=).
    rewrite Hgui. unfold Gui.add_entry.
    set (n := S (EntryList.entry_count (Gui.entry_list (gui self)))).
    destruct (EntryListFacts.add_entry_tidy
                (rnd n) (parent_of got r) r _ Htidy) as [Hok Htidy'].
    pose proof (EntryListFacts.add_entry_widgets
                  (rnd n) (parent_of got r) r _ Htidy) as Hw.
    destruct (EntryList.add_entry (rnd n) (parent_of got r) r
                                  (Gui.entry_list (gui self)))
      as [ret l]. cbn [fst snd] in Hok, Htidy', Hw. subst ret.
    destruct (IH (Build (feed_objs got) (entry_objs got) (feed_list got)
                        rest (Gui.Build l) (log got)) Htidy' Hall)
      as (H1 & H2 & H3 & H4 & (fs & H5) & (es & H6) & H7 & added & H8 & H9).
    cbn [feed_objs entry_objs feed_list log gui Gui.entry_list] in *.
    split_and!.
    + done.
    + done.
    + congruence.
    + congruence.
    + eexists. by rewrite H5, Hfo, <- app_assoc.
    + eexists. by rewrite H6, Heo, <- app_assoc.
    + done.
    + eexists (_ :: added). split.
      * rewrite H8, Hw, <- app_assoc. done.
      * constructor.
        -- exists e, f, (relocate_entry (length (feed_objs self)) e),
             (relocate_feed (length (entry_objs self)) f).
           cbn [EntryList.entry EntryList.visible].
           rewrite Hpar. cbn [relocate_feed Feed.enabled Feed.url].
           split_and!.
           ++ done.
           ++ unfold sent_parent. by rewrite He.
           ++ lia.
           ++ rewrite H6. by apply lookup_app_l_Some.
           ++ apply same_content_relocate.
           ++ cbn. lia.
           ++ rewrite H5. by apply lookup_app_l_Some.
           ++ done.
           ++ done.
           ++ done.
        -- eapply Forall2_impl; [exact H9|].
           intros p' it'. apply shows_later; cbn [feed_objs entry_objs].
           ++ rewrite Heo, length_app. lia.
           ++ rewrite Hfo, length_app. lia.
Qed.

(** X22: [update_entries] with no producer at work.  It takes every
    pickle out of the queue and hands the entry it unpickles to the GUI,
    in the order of the queue, and nothing is raised.  What comes out of
    the queue is a copy: the entry list gets one more widget per pickle, in
    that order, each for a new entry object with the content of the entry
    that was put, and each shown exactly when the parent feed of that
    entry was enabled at the time of the [put], whatever its state is by
    now.  The objects and the feed list of the controller are as they
    were. *)
Theorem update_entries_drains rnd self :
  EntryList.reachable (Gui.entry_list (gui self)) ->
  Forall (fun p => is_Some (sent_parent p)) (entry_queue self) ->
  let r := update_entries rnd self in
  r.1 = Ok ()
  /\ entry_queue r.2 = []
  /\ feed_list r.2 = feed_list self
  /\ (exists copies, feed_objs r.2 = feed_objs self ++ copies)
  /\ (exists copies, entry_objs r.2 = entry_objs self ++ copies)
  /\ EntryList.entry_count (Gui.entry_list (gui r.2))
     = (EntryList.entry_count (Gui.entry_list (gui self))
        + length (entry_queue self))%nat
  /\ exists added,
       EntryList.widgets (Gui.entry_list (gui r.2))
       = EntryList.widgets (Gui.entry_list (gui self)) ++ added
       /\ Forall2 (shows self r.2) (entry_queue self) added.
Proof.
  intros Hreach Hall r.
  assert (Htidy : EntryList.tidy (Gui.entry_list (gui self))).
  { induction Hreach.
    - apply EntryListFacts.init_tidy.
    - by apply EntryListFacts.add_entry_tidy.
    - by apply EntryListFacts.reload_feed_tidy. }
  destruct (drain_spec rnd (entry_queue self) self Htidy Hall)
    as (H1 & H2 & H3 & _ & H5 & H6 & H7 & added & H8 & H9).
  subst r. unfold update_entries.
  split_and!; try done; [|by exists added].
  destruct H7 as (Hlen & _). destruct Htidy as (Hlen0 & _).
  rewrite <- Hlen, H8, length_app, <- Hlen0.
  by rewrite (Forall2_length _ _ _ H9).
Qed.

(** X23: the end of [run].  The feed list is saved before the cache: when
    saving the feed list fails, the exception leaves [run] and the cache
    is not saved, so the cache file stays as it was even if it could have
    been written; when the feed list is written, the cache is saved next
    and nothing is raised, whether that write succeeds or not. *)
Theorem shutdown_saves_feeds_first {V : Type} cache_path io_feeds io_cache
    data_path self file (cache : EntryCache.t V) cache_file :
  let r := shutdown cache_path io_feeds io_cache data_path self file cache
                    cache_file in
  (forall e, failure_of io_feeds = Some e ->
             r.1.1.1 = Raise e /\ r.1.2 = cache_file)
  /\ (io_feeds = WriteOk ->
      r.1.1.1 = Ok ()
      /\ r.1.1.2
         = FeedList.Holds
             (JArr (FeedList.saved_state
                    <$> ((fun i => feed_objs self !!! i) <$> feed_list self)))
      /\ (io_cache = WriteOk ->
          r.1.2 = EntryCache.Pickled (EntryCache.used cache))).
Proof.
  intros r. subst r. unfold shutdown, FeedList.save, FeedList.save_body.
  split.
  - intros e He.
    destruct io_feeds; simplify_eq/=; by destruct (decide _).
  - intros ->. cbn. unfold EntryCache.save, EntryCache.save_body.
    destruct io_cache; cbn; split_and!; done.
Qed.

Lemma entries_of_enabled_feeds_witness :
  0%nat ∈ entries SampleMore.one_read.
Proof.
  apply (proj2 (entries_of_enabled_feeds SampleMore.one_read 0%nat)).
  exists 0%nat. split_and!; [by apply elem_of_cons; left|reflexivity|].
  apply elem_of_cons. by left.
Defined.

Lemma add_feed_outcome_witness :
  (add_feed Sample.world Sample.good_url SampleMore.two_feeds).1 = Ok (Some 2%nat)
  /\ (add_feed Sample.world Sample.bad_url SampleMore.two_feeds).1 = Ok None.
Proof.
  split.
  - destruct (proj1 (proj2 (add_feed_outcome Sample.world Sample.good_url
                                             SampleMore.two_feeds)) _ eq_refl)
      as (H & _).
    exact H.
  - by rewrite (proj1 (add_feed_outcome Sample.world Sample.bad_url
                                        SampleMore.two_feeds) _ eq_refl).
Defined.

Lemma edit_feed_outcome_witness :
  let r := edit_feed 0%nat "Renamed" true SampleMore.two_feeds in
  r.1 = Ok ()
  /\ exists f', feed_objs r.2 !! 0%nat = Some f'
                /\ Feed.display f' = JStr "Renamed"
                /\ truthy (Feed.enabled f') = true.
Proof.
  intros r.
  destruct (edit_feed_outcome 0%nat "Renamed" true SampleMore.two_feeds
                              _ eq_refl)
    as (H1 & (f' & H2 & H3 & H4 & _) & _).
  split; [exact H1|]. by exists f'.
Defined.

Lemma remove_feed_outcome_witness :
  (remove_feed 1%nat SampleMore.two_feeds).1 = Ok ()
  /\ feed_list (remove_feed 1%nat SampleMore.two_feeds).2 = [0%nat].
Proof.
  destruct (remove_feed_outcome 1%nat SampleMore.two_feeds _ eq_refl)
    as (_ & _ & Hin & _).
  destruct Hin as (H1 & (l1 & l2 & Hl & Hnot & H2) & _).
  { apply elem_of_cons. right. apply elem_of_cons. by left. }
  split; [exact H1|]. rewrite H2.
  destruct l1 as [|x [|y l1]]; simplify_eq/=; done.
Defined.

Lemma update_entries_drains_witness :
  let r := update_entries (fun _ => 0%nat) SampleMore.two_feeds in
  r.1 = Ok ()
  /\ entry_queue r.2 = []
  /\ exists it,
       EntryList.widgets (Gui.entry_list (gui r.2)) = [it]
       /\ EntryList.visible it = true.
Proof.
  intros r.
  destruct (update_entries_drains (fun _ => 0%nat) SampleMore.two_feeds
                                  EntryList.reach_init)
    as (H1 & H2 & _ & _ & _ & _ & added & Hw & Hshown).
  { repeat constructor. by eexists. }
  split; [exact H1|]. split; [exact H2|].
  apply Forall2_cons_inv_l in Hshown as (it & rest & Hit & Hrest & ->).
  apply Forall2_nil_inv_l in Hrest as ->.
  exists it. split; [exact Hw|].
  destruct Hit as (e & f & e' & f' & _ & Hf & _ & _ & _ & _ & _ & _ & _ & Hv).
  rewrite Hv. vm_compute in Hf. by simplify_eq.
Defined.

Lemma shutdown_saves_feeds_first_witness :
  let denied := Exn OSError "Permission denied" in
  let old : EntryCache.cache_file nat := EntryCache.Pickled {["b" := 7%nat]} in
  let r := shutdown "entries.pickle" (OpenFails denied) WriteOk "feeds.json"
                    SampleMore.two_feeds (FeedList.Holds (JArr []))
                    (EntryCache.Build ∅ ∅) old in
  r.1.1.1 = Raise denied /\ r.1.2 = old.
Proof.
  intros denied old r.
  apply (proj1 (shutdown_saves_feeds_first
                  "entries.pickle" (OpenFails denied) WriteOk "feeds.json"
                  SampleMore.two_feeds (FeedList.Holds (JArr []))
                  (EntryCache.Build ∅ ∅) old)).
  reflexivity.
Defined.

End ControllerFacts.
